(** * memorygate-demo: the baseline retrieval store and the MemoryGate client

    A shallow embedding of [examples/baseline_rag.py] (class [BaselineRAG])
    and of [MemoryGateClient.feedback] from [examples/with_memorygate.py],
    followed by the properties of the specification that concern them.

    Conventions of the embedding:
    - a Python [float] that the code only ever sets from the literals [1.0]
      and [0.0], and a similarity score, is a rational [Q]; rounding of the
      float32 inner product is not modelled;
    - the sentence embedder ([SentenceTransformer.encode] with
      [normalize_embeddings=True]) and [np.argsort] are external: they are
      variables of the development, [np.argsort] with the contract NumPy
      documents for it (an index permutation that sorts the array in
      ascending order; the default kind is not a stable sort); the
      embedder returns vectors of one fixed dimension, so the shape errors
      of [np.vstack] and [np.dot] do not arise and are not modelled;
    - a method returns its Python outcome (a value or a raised exception),
      the object after the call, and the lines it printed. *)

From Stdlib Require Import List Ascii String ZArith QArith Qminmax Bool.
From Stdlib Require Import Lia Lqa Permutation Sorted.
Import ListNotations.

Local Open Scope string_scope.
Local Open Scope list_scope.
Local Open Scope Q_scope.

(** ** Data model *)

(** An embedding vector: a one-dimensional array of floats. *)
Definition vec := list Q.

(** [Dict[str, Any]] metadata, opaque to the store. *)
Definition dict := list (string * string).

(** The dictionary built by [add_memory].  The key ["flagged"] is absent
    until [flag_memory] writes it: [None] is the absent key. *)
Record memory := mkMemory {
  memory_id : string;
  content : string;
  metadata : dict;
  embedding : vec;
  trust_weight : Q;
  flagged : option bool
}.

(** An element of the list returned by [query]: a copy of the memory with
    ["embedding"] popped and ["relevance"] added. *)
Record result := mkResult {
  r_memory_id : string;
  r_content : string;
  r_metadata : dict;
  r_trust_weight : Q;
  r_flagged : option bool;
  relevance : Q
}.

(** The object: [self.memories] and [self.embeddings] ([None] until the
    first [add_memory], then a matrix given by its rows). *)
Record BaselineRAG := mkRAG {
  memories : list memory;
  embeddings : option (list vec)
}.

(** [BaselineRAG.__init__] (the embedder is a variable below). *)
Definition init : BaselineRAG := mkRAG [] None.

(** Exceptions.  [TypeError] and [IndexError] are those the interpreter
    raises in [query]; [NotFoundError] is the one the specification names;
    [UnicodeEncodeError] and [LocationParseError] are two that
    [requests.post] lets through without wrapping them in a request
    exception (an API key outside Latin-1 when the headers are written, a
    host label that is too long when the URL is parsed). *)
Inductive exn :=
| TypeError
| IndexError
| AttributeError
| NotFoundError
| UnicodeEncodeError
| LocationParseError.

Inductive outcome (A : Type) :=
| Returned (a : A)
| Raised (e : exn).
Arguments Returned {A} a.
Arguments Raised {A} e.

(** The lines a method prints:
    - [AddedMemory id]: "[Baseline RAG] Added memory: id"
    - [FlaggedMemory id reason]: "[Baseline RAG] Flagged memory: id (reason: reason)"
    - [StillAppears]: "[Baseline RAG] WARNING: Memory still appears in query results!"
    - [MemoryNotFound id]: "[Baseline RAG] Memory not found: id" *)
Inductive printed :=
| AddedMemory (id : string)
| FlaggedMemory (id : string) (reason : option string)
| StillAppears
| MemoryNotFound (id : string).

(** What a method call leaves behind. *)
Record call (A : Type) := mkCall {
  value : outcome A;
  self_after : BaselineRAG;
  stdout : list printed
}.
Arguments mkCall {A} value self_after stdout.
Arguments value {A} c.
Arguments self_after {A} c.
Arguments stdout {A} c.

(** ** NumPy and Python primitives *)

(** Inner product of two one-dimensional arrays. *)
Definition dot (u v : vec) : Q :=
  fold_right Qplus 0 (map (fun p => fst p * snd p) (combine u v)).

(** [np.dot(matrix, vector)]: one inner product per row. *)
Definition np_dot (E : list vec) (q : vec) : list Q :=
  map (fun row => dot row q) E.

(** [np.vstack([matrix, row])]. *)
Definition np_vstack (E : list vec) (row : vec) : list vec := E ++ [row].

(** The slice [l[:k]]: the first [k] elements when [k >= 0], all but the
    last [-k] when [k < 0]. *)
Definition slice_to {A : Type} (k : Z) (l : list A) : list A :=
  if (0 <=? k)%Z then firstn (Z.to_nat k) l
  else firstn (List.length l - Z.to_nat (- k)) l.

(** A [for] loop that appends one element per iteration and stops at the
    first exception. *)
Fixpoint for_each {A B : Type} (body : A -> outcome B) (l : list A)
  : outcome (list B) :=
  match l with
  | [] => Returned []
  | a :: rest =>
      match body a with
      | Raised e => Raised e
      | Returned b =>
          match for_each body rest with
          | Raised e => Raised e
          | Returned bs => Returned (b :: bs)
          end
      end
  end.

(** [a[i]] on an array of scores; [0] stands for an index out of range,
    which the contract below rules out. *)
Definition at_index (a : list Q) (i : nat) : Q := nth i a 0.

(** The contract of [np.argsort] on a one-dimensional array: the indices
    [0 .. len-1] in an order that makes the values ascend. *)
Class ArgsortSpec (argsort : list Q -> list nat) : Prop := {
  argsort_perm : forall a, Permutation (argsort a) (seq 0 (List.length a));
  argsort_sorted : forall a, StronglySorted Qle (map (at_index a) (argsort a))
}.

(** A stable argsort moreover lists equal values by increasing index. *)
Definition argsort_stable (argsort : list Q -> list nat) : Prop :=
  forall a p p' i j,
    (p < p')%nat ->
    nth_error (argsort a) p = Some i ->
    nth_error (argsort a) p' = Some j ->
    at_index a i == at_index a j ->
    (i < j)%nat.

(** ** BaselineRAG *)

Section Baseline.

(** [self.embedder.encode(text, normalize_embeddings=True)]. *)
Variable encode : string -> vec.
(** [np.argsort]. *)
Variable argsort : list Q -> list nat.

(** The copy of a memory that [query] puts in its result. *)
Definition to_result (m : memory) (sim : Q) : result :=
  mkResult (memory_id m) (content m) (metadata m)
           (trust_weight m) (flagged m) sim.

(** [add_memory]: append the new dictionary, then grow the matrix. *)
Definition add_memory (self : BaselineRAG) (id text : string)
    (md : option dict) : call unit :=
  let e := encode text in
  let m := mkMemory id text
                    (match md with Some d => d | None => [] end)
                    e 1 None in
  let memories' := memories self ++ [m] in
  let embeddings' :=
    match embeddings self with
    | None => Some [e]
    | Some E => Some (np_vstack E e)
    end in
  mkCall (Returned tt) (mkRAG memories' embeddings') [AddedMemory id].

(** The body of the loop of [query]: [self.memories[idx]], then
    [similarities[idx]]. *)
Definition pick (ms : list memory) (similarities : list Q) (idx : nat)
  : outcome result :=
  match nth_error ms idx with
  | None => Raised IndexError
  | Some m =>
      match nth_error similarities idx with
      | None => Raised IndexError
      | Some sim => Returned (to_result m sim)
      end
  end.

(** [np.argsort(similarities)[::-1][:n_results]]. *)
Definition top_indices (similarities : list Q) (n_results : Z) : list nat :=
  slice_to n_results (rev (argsort similarities)).

Definition query (self : BaselineRAG) (query_text : string)
    (n_results : Z) : call (list result) :=
  match memories self with
  | [] => mkCall (Returned []) self []
  | _ :: _ =>
      let query_embedding := encode query_text in
      match embeddings self with
      | None => mkCall (Raised TypeError) self []
      | Some E =>
          let similarities := np_dot E query_embedding in
          mkCall (for_each (pick (memories self) similarities)
                           (top_indices similarities n_results))
                 self []
      end
  end.

(** What [flag_memory] writes into the dictionary it found. *)
Definition mark_flagged (m : memory) : memory :=
  mkMemory (memory_id m) (content m) (metadata m) (embedding m)
           0 (Some true).

(** The loop of [flag_memory]: the first memory with the id is rewritten
    and the loop returns; [None] when the loop runs to its end. *)
Fixpoint flag_first (id : string) (ms : list memory)
  : option (list memory) :=
  match ms with
  | [] => None
  | m :: rest =>
      if String.eqb (memory_id m) id
      then Some (mark_flagged m :: rest)
      else option_map (cons m) (flag_first id rest)
  end.

Definition flag_memory (self : BaselineRAG) (id : string)
    (reason : option string) : call unit :=
  match flag_first id (memories self) with
  | Some ms' =>
      mkCall (Returned tt) (mkRAG ms' (embeddings self))
             [FlaggedMemory id reason; StillAppears]
  | None => mkCall (Returned tt) self [MemoryNotFound id]
  end.

(** *** Sequences of calls *)

Inductive op :=
| AddMemory (id text : string) (md : option dict)
| Query (query_text : string) (n_results : Z)
| FlagMemory (id : string) (reason : option string).

Definition exec (self : BaselineRAG) (o : op) : BaselineRAG :=
  match o with
  | AddMemory id text md => self_after (add_memory self id text md)
  | Query q k => self_after (query self q k)
  | FlagMemory id reason => self_after (flag_memory self id reason)
  end.

Definition run (ops : list op) (self : BaselineRAG) : BaselineRAG :=
  fold_left exec ops self.

(** The first memory with a given id, as the loop of [flag_memory]
    finds it. *)
Definition find_memory (id : string) (ms : list memory) : option memory :=
  find (fun m => String.eqb (memory_id m) id) ms.

(** Similarity of a stored memory to a query text: the inner product of
    the two (normalized) embeddings. *)
Definition similarity (m : memory) (query_text : string) : Q :=
  dot (embedding m) (encode query_text).

(** The invariant tying the matrix to the list: row [i] is the stored
    embedding of [memories[i]]. *)
Definition aligned (self : BaselineRAG) : Prop :=
  match embeddings self with
  | None => memories self = []
  | Some E => E = map embedding (memories self)
  end.

End Baseline.

(** ** A reference [argsort]: insertion sort on the indices *)

Fixpoint insert_index (a : list Q) (i : nat) (l : list nat) : list nat :=
  match l with
  | [] => [i]
  | j :: rest =>
      if Qle_bool (at_index a i) (at_index a j)
      then i :: l
      else j :: insert_index a i rest
  end.

Definition insertion_argsort (a : list Q) : list nat :=
  fold_right (insert_index a) [] (seq 0 (List.length a)).

(** Another sort within the contract, which is not stable: an index goes
    after the equal values already placed, so that equal values come by
    decreasing index. *)
Fixpoint insert_after (a : list Q) (i : nat) (l : list nat) : list nat :=
  match l with
  | [] => [i]
  | j :: rest =>
      if Qle_bool (at_index a j) (at_index a i)
      then j :: insert_after a i rest
      else i :: l
  end.

Definition unstable_argsort (a : list Q) : list nat :=
  fold_right (insert_after a) [] (seq 0 (List.length a)).

(** A toy embedder for the examples: two coordinates read off the text. *)
Definition toy_encode (s : string) : vec :=
  [inject_Z (Z.of_nat (String.length s)); 1].

(** ** Stores used as examples *)

(** One document, as in the scenario of the demo. *)
Definition doc1_store : BaselineRAG :=
  run toy_encode insertion_argsort
      [AddMemory "doc1" "Office is in NYC" None] init.

(** The same id ingested twice. *)
Definition reingested_store : BaselineRAG :=
  run toy_encode insertion_argsort
      [AddMemory "doc1" "Office is in NYC" None;
       AddMemory "doc1" "Office is in SF" None] init.

(** Three documents, two of them with the same embedding, one flagged. *)
Definition three_store : BaselineRAG :=
  run toy_encode insertion_argsort
      [AddMemory "a" "xx" None; AddMemory "b" "xxxx" None;
       AddMemory "c" "xx" None; FlagMemory "b" (Some "outdated")] init.

(** Four documents, the first two with the same embedding. *)
Definition tied_store : BaselineRAG :=
  run toy_encode unstable_argsort
      [AddMemory "a" "xxxx" None; AddMemory "b" "xxxx" None;
       AddMemory "c" "xx" None; AddMemory "d" "x" None] init.

(** ** Observations used by the properties *)

(** What a consumer sees of the ranking: the ids in order with their
    relevance scores, or the exception. *)
Definition scores (o : outcome (list result)) : outcome (list (string * Q)) :=
  match o with
  | Returned rs => Returned (map (fun r => (r_memory_id r, relevance r)) rs)
  | Raised e => Raised e
  end.

Definition ranking (c : call (list result)) : outcome (list (string * Q)) :=
  scores (value c).

(** The number of entries of the store that carry a given id. *)
Definition count_id (id : string) (ms : list memory) : nat :=
  List.length (filter (fun m => String.eqb (memory_id m) id) ms).

(** What a call may do to an entry it keeps: the id stays, and a flag that
    is set stays set. *)
Definition keeps (m m' : memory) : Prop :=
  memory_id m' = memory_id m /\
  (flagged m = Some true -> flagged m' = Some true).

(** The list after some calls: the old entries, each kept, then new ones. *)
Definition extends (ms ms' : list memory) : Prop :=
  exists kept added, ms' = kept ++ added /\ Forall2 keeps ms kept.

(** The order a stable ascending sort of the scores puts the indices in:
    by score, equal scores by index. *)
Definition stable_lt (a : list Q) (i j : nat) : Prop :=
  at_index a i < at_index a j \/ (at_index a i == at_index a j /\ (i < j)%nat).

(** The update the specification describes for a flag:
    [trust' = max(floor, trust * d)]. *)
Definition decayed (floor d trust : Q) : Q := Qmax floor (trust * d).

(** ** MemoryGateClient.feedback *)

(** A decoded JSON document.  An object is the Python [dict] that
    [response.json()] builds, given by its items. *)
#[local] Set Warnings "-register-all".
Inductive json :=
| JNull
| JBool (b : bool)
| JNumber (q : Q)
| JString (s : string)
| JArray (items : list json)
| JObject (fields : list (string * json)).

(** The [payload] dictionary of [feedback]; ["role"] is an optional key. *)
Record payload := mkPayload {
  p_memory_id : string;
  p_action : string;
  p_role : option string
}.

(** A [requests.Response]: status code, body text, and the body decoded as
    JSON when it is JSON. *)
Record response := mkResponse {
  status_code : Z;
  text : string;
  decoded : option json
}.

(** The subclasses of [requests.exceptions.RequestException] the call can
    meet.  Only an [HTTPError] carries a response.  [JSONDecodeError] is
    the one [response.json()] raises (a [RequestException] since
    requests 2.27). *)
Inductive request_exception :=
| ConnectionError
| ReadTimeout
| HTTPError (r : response)
| JSONDecodeError.

(** What [requests.post] does: raise a request exception, return a
    response, or raise an exception that is not a request exception. *)
Inductive post_outcome :=
| PostRaises (e : request_exception)
| PostReturns (r : response)
| PostRaisesOther (e : exn).

(** How the body of the [try] block ends. *)
Inductive attempt (A : Type) :=
| Completed (a : A)
| RequestException (e : request_exception)
| Uncaught (e : exn).
Arguments Completed {A} a.
Arguments RequestException {A} e.
Arguments Uncaught {A} e.

(** The lines [feedback] prints:
    - [FeedbackApplied action id]: "[MemoryGate] SUCCESS: Feedback applied: action on id"
    - [FeedbackFailed e]: "[MemoryGate] ERROR: Feedback failed: e"
    - [ResponseText t]: "    Response: t" *)
Inductive client_printed :=
| FeedbackApplied (action id : string)
| FeedbackFailed (e : request_exception)
| ResponseText (t : string).

Record MemoryGateClient := mkClient {
  api_key : string;
  api_url : string
}.

(** [response.raise_for_status()]: an [HTTPError] for 4xx and 5xx. *)
Definition raise_for_status (r : response) : option request_exception :=
  if ((400 <=? status_code r) && (status_code r <? 600))%Z
  then Some (HTTPError r) else None.

(** [dict.get(key)]: the value of the key, [None] when it is absent. *)
Fixpoint dict_get (key : string) (fields : list (string * json))
  : option json :=
  match fields with
  | [] => None
  | (k, v) :: rest => if String.eqb k key then Some v else dict_get key rest
  end.

(** [result.get("status")]: only a [dict] has the method. *)
Definition get_status (result : json) : outcome (option json) :=
  match result with
  | JObject fields => Returned (dict_get "status" fields)
  | _ => Raised AttributeError
  end.

(** [v in ("success", "queued")]. *)
Definition in_success_queued (v : option json) : bool :=
  match v with
  | Some (JString s) => String.eqb s "success" || String.eqb s "queued"
  | _ => false
  end.

(** [e.response], for the [except] clause. *)
Definition exception_response (e : request_exception) : option response :=
  match e with
  | HTTPError r => Some r
  | _ => None
  end.

Section Client.

(** [requests.post(url, json=payload, headers=..., timeout=10)], headers
    given by the API key. *)
Variable requests_post : string -> string -> payload -> post_outcome.

(** [if role: payload["role"] = role]: an empty string is falsy. *)
Definition feedback_payload (id action : string) (role : option string)
  : payload :=
  mkPayload id action
    (match role with
     | Some r => if String.eqb r "" then None else Some r
     | None => None
     end).

(** The [try] block of [feedback].  An exception of [requests.post] that
    is not a request exception passes the [except] clause. *)
Definition feedback_try (self : MemoryGateClient) (id action : string)
    (role : option string) : attempt bool * list client_printed :=
  match requests_post (api_url self ++ "/v1/feedback")%string (api_key self)
                      (feedback_payload id action role) with
  | PostRaises e => (RequestException e, [])
  | PostRaisesOther e => (Uncaught e, [])
  | PostReturns r =>
      match raise_for_status r with
      | Some e => (RequestException e, [])
      | None =>
          match decoded r with
          | None => (RequestException JSONDecodeError, [])
          | Some result =>
              match get_status result with
              | Raised e => (Uncaught e, [FeedbackApplied action id])
              | Returned v =>
                  (Completed (in_success_queued v),
                   [FeedbackApplied action id])
              end
          end
      end
  end.

(** [feedback]: the [try] block and its [except RequestException]. *)
Definition feedback (self : MemoryGateClient) (id action : string)
    (role : option string) : outcome bool * list client_printed :=
  match feedback_try self id action role with
  | (Completed b, out) => (Returned b, out)
  | (Uncaught e, out) => (Raised e, out)
  | (RequestException e, out) =>
      (Returned false,
       out ++ FeedbackFailed e ::
         match exception_response e with
         | Some r => [ResponseText (text r)]
         | None => []
         end)
  end.

End Client.

(** ** Further observations on BaselineRAG *)

(** The fields of a memory that [add_memory] writes and nothing rewrites. *)
Definition ingested_fields (m : memory) : string * string * dict * vec :=
  (memory_id m, content m, metadata m, embedding m).

(** The [add_memory] calls of a sequence, in order, with the metadata as
    stored. *)
Definition added (ops : list op) : list (string * string * dict) :=
  flat_map (fun o => match o with
                     | AddMemory id text md =>
                         [(id, text, match md with Some d => d | None => [] end)]
                     | _ => []
                     end) ops.

(** The list [self.memories] after [flag_memory]. *)
Definition flag_list (id : string) (ms : list memory) : list memory :=
  match flag_first id ms with
  | Some ms' => ms'
  | None => ms
  end.

(** A result as it reads once its memory has been flagged. *)
Definition mark_result (id : string) (r : result) : result :=
  if String.eqb (r_memory_id r) id
  then mkResult (r_memory_id r) (r_content r) (r_metadata r)
                0 (Some true) (relevance r)
  else r.

(** ** MemoryGateClient: construction, ingest and query *)

(** The [json=] argument of the three requests of the client. *)
Inductive request_body :=
| IngestBody (id text : string) (md : dict) (initial_trust : Q)
| QueryBody (query_text : string) (limit : Z)
| FeedbackBody (p : payload).

(** The lines [__init__], [ingest] and [query] print:
    - [KeyMissing]: the four lines that start "ERROR: MEMORYGATE_API_KEY not found!"
    - [ApiUrlLine url]: "[MemoryGate] API URL: url"
    - [ApiKeyLoaded key]: "[MemoryGate] API Key: (loaded, length=len(key))"
    - [Ingested id]: "[MemoryGate] SUCCESS: Ingested: id"
    - [IngestFailed id e]: "[MemoryGate] ERROR: Failed to ingest id: e"
    - [QueryFailed e]: "[MemoryGate] ERROR: Query failed: e"
    - [ErrorResponseText t]: "    Response: t" *)
Inductive client_line :=
| KeyMissing
| ApiUrlLine (url : string)
| ApiKeyLoaded (key : string)
| Ingested (id : string)
| IngestFailed (id : string) (e : request_exception)
| QueryFailed (e : request_exception)
| ErrorResponseText (t : string).

(** How [__init__] ends: with the object, or in [sys.exit(code)]. *)
Inductive construction :=
| Constructed (c : MemoryGateClient)
| SystemExit (code : Z).

(** [s.rstrip(c)] for a one-character [c]. *)
Fixpoint rstrip (c : Ascii.ascii) (s : string) : string :=
  match s with
  | EmptyString => EmptyString
  | String a rest =>
      let r := rstrip c rest in
      if Ascii.eqb a c && String.eqb r "" then EmptyString else String a r
  end.

(** [c] repeated [n] times. *)
Fixpoint repeat_char (c : Ascii.ascii) (n : nat) : string :=
  match n with
  | O => EmptyString
  | S n => String c (repeat_char c n)
  end.

(** Truth value of an optional string: [None] and the empty string are
    false. *)
Definition truthy (s : option string) : bool :=
  match s with
  | Some s => negb (String.eqb s "")
  | None => false
  end.

(** [a or b]. *)
Definition py_or (a b : option string) : option string :=
  if truthy a then a else b.

Definition default_api_url : string :=
  "https://memorygate-production.up.railway.app".

(** [result.get("status") == "success"]. *)
Definition is_success (v : option json) : bool :=
  match v with
  | Some (JString s) => String.eqb s "success"
  | _ => false
  end.


(** [MemoryGateClient.__init__], given [os.getenv]. *)
Definition client_init (getenv : string -> option string)
    (key url : option string) : construction * list client_line :=
  let the_key := py_or key (getenv "MEMORYGATE_API_KEY") in
  let env_url := match getenv "MEMORYGATE_API_URL" with
                 | Some u => u
                 | None => default_api_url
                 end in
  let the_url := rstrip "/"%char (match py_or url (Some env_url) with
                             | Some u => u
                             | None => env_url
                             end) in
  match the_key with
  | Some k =>
      if String.eqb k "" then (SystemExit 1, [KeyMissing])
      else (Constructed (mkClient k the_url),
            [ApiUrlLine the_url; ApiKeyLoaded k])
  | None => (SystemExit 1, [KeyMissing])
  end.

Section ClientRequests.

(** [requests.post(url, json=body, headers=..., timeout=10)], headers given
    by the API key. *)
Variable post : string -> string -> request_body -> post_outcome.

(** The [try] block of [ingest]. *)
Definition ingest_try (self : MemoryGateClient) (id txt : string)
    (md : option dict) (initial_trust : Q) : attempt bool * list client_line :=
  match post (api_url self ++ "/v1/ingest")%string (api_key self)
             (IngestBody id txt (match md with Some d => d | None => [] end)
                         initial_trust) with
  | PostRaises e => (RequestException e, [])
  | PostRaisesOther e => (Uncaught e, [])
  | PostReturns r =>
      match raise_for_status r with
      | Some e => (RequestException e, [])
      | None =>
          match decoded r with
          | None => (RequestException JSONDecodeError, [])
          | Some result =>
              match get_status result with
              | Raised e => (Uncaught e, [Ingested id])
              | Returned v => (Completed (is_success v), [Ingested id])
              end
          end
      end
  end.

(** [ingest]: the [try] block and its [except RequestException]. *)
Definition ingest (self : MemoryGateClient) (id txt : string)
    (md : option dict) (initial_trust : Q) : outcome bool * list client_line :=
  match ingest_try self id txt md initial_trust with
  | (Completed b, out) => (Returned b, out)
  | (Uncaught e, out) => (Raised e, out)
  | (RequestException e, out) =>
      (Returned false,
       out ++ IngestFailed id e ::
         match exception_response e with
         | Some r => [ErrorResponseText (text r)]
         | None => []
         end)
  end.



(** [feedback] over the same transport. *)
Definition client_feedback (self : MemoryGateClient) (id action : string)
    (role : option string) : outcome bool * list client_printed :=
  feedback (fun url key p => post url key (FeedbackBody p)) self id action role.

End ClientRequests.

(** ** load_env_file *)

(** The text of the .env file is a Python [str]: a sequence of Unicode
    code points. *)
Definition str := list N.

Definition ch_equals : N := 61.
Definition ch_hash : N := 35.
Definition ch_dquote : N := 34.
Definition ch_squote : N := 39.

(** The characters [str.strip()] removes: those Python counts as
    whitespace. *)
Definition is_space (c : N) : bool :=
  (((9 <=? c) && (c <=? 13)) || ((28 <=? c) && (c <=? 32)) ||
   (c =? 133) || (c =? 160) || (c =? 5760) ||
   ((8192 <=? c) && (c <=? 8202)) ||
   (c =? 8232) || (c =? 8233) || (c =? 8239) || (c =? 8287) ||
   (c =? 12288))%N.

(** [lstrip], [rstrip] and [strip] of the characters a predicate picks. *)
Fixpoint lstrip_by (p : N -> bool) (s : str) : str :=
  match s with
  | [] => []
  | c :: rest => if p c then lstrip_by p rest else s
  end.

Definition rstrip_by (p : N -> bool) (s : str) : str :=
  rev (lstrip_by p (rev s)).

Definition strip_by (p : N -> bool) (s : str) : str :=
  rstrip_by p (lstrip_by p s).

(** [s.strip()] and [s.strip(c)] for a one-character [c]. *)
Definition strip (s : str) : str := strip_by is_space s.
Definition strip_char (c : N) (s : str) : str := strip_by (N.eqb c) s.

(** [s.startswith(c)] and [c in s] for a one-character [c]. *)
Definition startswith (c : N) (s : str) : bool :=
  match s with
  | [] => false
  | a :: _ => N.eqb a c
  end.

Definition contains (c : N) (s : str) : bool := existsb (N.eqb c) s.

(** [s.split(c, 1)] on a string that contains [c]: what precedes the
    first [c] and what follows it. *)
Fixpoint split_once (c : N) (s : str) : str * str :=
  match s with
  | [] => ([], [])
  | a :: rest =>
      if N.eqb a c then ([], rest)
      else let (k, v) := split_once c rest in (a :: k, v)
  end.

(** Truth value of a string. *)
Definition nonempty (s : str) : bool :=
  match s with
  | [] => false
  | _ :: _ => true
  end.

(** The body of the loop of [load_env_file]: the assignment
    [os.environ[key] = value] a line leads to, if any. *)
Definition parse_env_line (line : str) : option (str * str) :=
  let line := strip line in
  if nonempty line && negb (startswith ch_hash line) && contains ch_equals line
  then
    let (key, value) := split_once ch_equals line in
    let key := strip key in
    let value := strip_char ch_squote (strip_char ch_dquote (strip value)) in
    if nonempty key && nonempty value then Some (key, value) else None
  else None.

(** The file as the function meets it: absent, or read line by line,
    the reading possibly ending in an exception ([open] failing is no line
    and an exception). *)
Inductive env_file :=
| Missing
| Readable (lines : list str) (read_error : bool).

(** The loop.  [setenv_ok key value] tells whether the assignment to
    [os.environ] goes through; when it raises, as when the reading does,
    the [except] clause prints the warning and the function returns.  The
    result is the assignments made, in order, and whether the warning was
    printed. *)
Fixpoint load_lines (setenv_ok : str -> str -> bool) (lines : list str)
    (read_error : bool) : list (str * str) * bool :=
  match lines with
  | [] => ([], read_error)
  | line :: rest =>
      match parse_env_line line with
      | Some (key, value) =>
          if setenv_ok key value
          then let (made, warned) := load_lines setenv_ok rest read_error in
               ((key, value) :: made, warned)
          else ([], true)
      | None => load_lines setenv_ok rest read_error
      end
  end.

Definition load_env_file (setenv_ok : str -> str -> bool) (f : env_file)
  : list (str * str) * bool :=
  match f with
  | Missing => ([], false)
  | Readable lines read_error => load_lines setenv_ok lines read_error
  end.

(** Whether a string begins, or ends, with a character a predicate picks. *)
Definition begins_with (p : N -> bool) (s : str) : bool :=
  match s with
  | [] => false
  | c :: _ => p c
  end.

Definition ends_with (p : N -> bool) (s : str) : bool :=
  begins_with p (rev s).

(** What can be said of every assignment the loop makes: a non-empty
    key without [=], without whitespace at either end and not beginning
    with [#]; a non-empty value that neither begins nor ends with a single
    quote. *)
Definition well_formed_assignment (key value : str) : Prop :=
  key <> [] /\ value <> [] /\
  contains ch_equals key = false /\
  begins_with is_space key = false /\ ends_with is_space key = false /\
  startswith ch_hash key = false /\
  begins_with (N.eqb ch_squote) value = false /\
  ends_with (N.eqb ch_squote) value = false.

(** A value as it can be written bare or between quotes and read back:
    no whitespace and no double quote at either end. *)
Definition bare_value (value : str) : Prop :=
  begins_with is_space value = false /\ ends_with is_space value = false /\
  begins_with (N.eqb ch_dquote) value = false /\
  ends_with (N.eqb ch_dquote) value = false.

(** A line the loop passes over: a comment, or a line without [=]. *)
Definition skipped_line (line : str) : Prop :=
  (exists pad rest, line = pad ++ ch_hash :: rest /\ forallb is_space pad = true) \/
  contains ch_equals line = false.

(** * Sorted lists *)

Section SortedFacts.

Context {A : Type}.

Lemma StronglySorted_app_inv (R : A -> A -> Prop) (l1 l2 : list A) :
  StronglySorted R (l1 ++ l2) ->
  StronglySorted R l1 /\ StronglySorted R l2 /\
  (forall x y, In x l1 -> In y l2 -> R x y).
Proof.
  induction l1 as [|a l1 IH]; cbn; intros H.
  - repeat split; [constructor | assumption | contradiction].
  - apply StronglySorted_inv in H as [H Ha].
    destruct (IH H) as (S1 & S2 & C). apply Forall_app in Ha as [Ha1 Ha2].
    repeat split; [constructor; assumption | assumption |].
    intros x y [<- | Hx] Hy; [|now apply C].
    rewrite Forall_forall in Ha2. now apply Ha2.
Qed.

Lemma StronglySorted_app (R : A -> A -> Prop) (l1 l2 : list A) :
  StronglySorted R l1 -> StronglySorted R l2 ->
  (forall x y, In x l1 -> In y l2 -> R x y) ->
  StronglySorted R (l1 ++ l2).
Proof.
  induction 1 as [|a l1 S1 IH Ha]; cbn; intros S2 C; [assumption|].
  constructor.
  - apply IH; auto.
  - apply Forall_app; split; [assumption|].
    apply Forall_forall. intros y Hy. apply C; auto.
Qed.

Lemma StronglySorted_rev (R : A -> A -> Prop) (l : list A) :
  StronglySorted R l -> StronglySorted (fun x y => R y x) (rev l).
Proof.
  induction 1 as [|a l S IH Ha]; cbn; [constructor|].
  apply StronglySorted_app; [assumption | repeat constructor |].
  intros x y Hx [<- | []]. rewrite Forall_forall in Ha.
  apply Ha. now apply in_rev.
Qed.

Lemma StronglySorted_nth_error (R : A -> A -> Prop) (l : list A) (p p' : nat) (x y : A) :
  StronglySorted R l -> (p < p')%nat ->
  nth_error l p = Some x -> nth_error l p' = Some y -> R x y.
Proof.
  intros S; revert p p'; induction S as [|a l S IH Ha]; intros p p' Hlt Hx Hy.
  - destruct p; discriminate.
  - destruct p' as [|p']; [lia|]. cbn in Hy. destruct p as [|p]; cbn in Hx.
    + injection Hx as <-. rewrite Forall_forall in Ha.
      eapply Ha, nth_error_In; eauto.
    + eapply (IH p p'); eauto. lia.
Qed.

Lemma StronglySorted_impl (R R' : A -> A -> Prop) (l : list A) :
  (forall x y, R x y -> R' x y) -> StronglySorted R l -> StronglySorted R' l.
Proof.
  intros HR; induction 1 as [|a l S IH Ha]; constructor; auto.
  eapply Forall_impl; [|exact Ha]. auto.
Qed.

End SortedFacts.

Lemma StronglySorted_map {A B : Type} (R : B -> B -> Prop) (f : A -> B)
    (l : list A) :
  StronglySorted (fun x y => R (f x) (f y)) l <-> StronglySorted R (map f l).
Proof.
  induction l as [|a l IH]; cbn.
  - split; constructor.
  - split; intros H; apply StronglySorted_inv in H as [H Ha]; constructor;
      try (apply IH; assumption).
    + apply Forall_forall. intros y Hy. apply in_map_iff in Hy as (x & <- & Hx).
      rewrite Forall_forall in Ha. now apply Ha.
    + apply Forall_forall. intros x Hx. rewrite Forall_forall in Ha.
      apply Ha. now apply in_map.
Qed.

Lemma Forall2_Forall {A B : Type} (P : A -> B -> Prop) (Q : A -> Prop)
    (Q' : B -> Prop) (l1 : list A) (l2 : list B) :
  (forall x y, P x y -> Q x -> Q' y) ->
  Forall2 P l1 l2 -> Forall Q l1 -> Forall Q' l2.
Proof.
  intros HP; induction 1 as [|x y l1 l2 Hxy _ IH]; intros HQ; constructor;
    apply Forall_cons_iff in HQ as [Hx HQ]; eauto.
Qed.

Lemma Forall2_StronglySorted {A B : Type} (P : A -> B -> Prop)
    (R : A -> A -> Prop) (R' : B -> B -> Prop) (l1 : list A) (l2 : list B) :
  (forall a b a' b', P a a' -> P b b' -> R a b -> R' a' b') ->
  Forall2 P l1 l2 -> StronglySorted R l1 -> StronglySorted R' l2.
Proof.
  intros HP; induction 1 as [|x y l1 l2 Hxy F2 IH]; intros S; constructor;
    apply StronglySorted_inv in S as [S Hx]; auto.
  eapply Forall2_Forall; [|exact F2|exact Hx]. intros a b Hab. now apply HP.
Qed.

Lemma nth_error_app_l {A : Type} (l r : list A) (p : nat) (x : A) :
  nth_error l p = Some x -> nth_error (l ++ r) p = Some x.
Proof.
  intros H. rewrite nth_error_app1; [assumption|].
  apply nth_error_Some. congruence.
Qed.

Lemma nth_error_rev_Some {A : Type} (l : list A) (p : nat) (x : A) :
  nth_error (rev l) p = Some x ->
  (p < List.length l)%nat /\ nth_error l (List.length l - S p) = Some x.
Proof.
  rewrite nth_error_rev. destruct (Nat.ltb_spec p (List.length l)); [|discriminate].
  auto.
Qed.

(** * The reference argsort meets the contract and is stable *)

Lemma insert_index_perm (a : list Q) (i : nat) (l : list nat) :
  Permutation (insert_index a i l) (i :: l).
Proof.
  induction l as [|j l IH]; cbn; [reflexivity|].
  destruct (Qle_bool (at_index a i) (at_index a j)); [reflexivity|].
  rewrite IH. apply perm_swap.
Qed.

Lemma insertion_perm (a : list Q) (l : list nat) :
  Permutation (fold_right (insert_index a) [] l) l.
Proof.
  induction l as [|i l IH]; cbn; [reflexivity|].
  rewrite insert_index_perm. now constructor.
Qed.

Lemma stable_lt_le (a : list Q) (i j : nat) :
  stable_lt a i j -> at_index a i <= at_index a j.
Proof. unfold stable_lt. intros [H | [H _]]; lra. Qed.

Lemma insert_index_sorted (a : list Q) (i : nat) (l : list nat) :
  StronglySorted (stable_lt a) l ->
  Forall (fun j => (i < j)%nat) l ->
  StronglySorted (stable_lt a) (insert_index a i l).
Proof.
  induction 1 as [|j l S IH Hj]; cbn; intros Hi.
  - repeat constructor.
  - apply Forall_cons_iff in Hi as [Hij Hi].
    destruct (Qle_bool (at_index a i) (at_index a j)) eqn:E.
    + apply Qle_bool_iff in E.
      constructor; [constructor; assumption|].
      assert (Hfirst : stable_lt a i j).
      { unfold stable_lt. destruct (Qle_lt_or_eq _ _ E); auto. }
      constructor; [assumption|].
      rewrite Forall_forall in Hj, Hi |- *. intros x Hx.
      specialize (Hj x Hx). specialize (Hi x Hx). unfold stable_lt in *.
      destruct Hj as [Hj | [Hj _]].
      * left; lra.
      * destruct (Qle_lt_or_eq _ _ E); [left; lra | right; split; [lra | lia]].
    + assert (Hlt : at_index a j < at_index a i).
      { apply Qnot_le_lt. intros H. apply Qle_bool_iff in H. congruence. }
      constructor; [now apply IH|].
      eapply Permutation_Forall; [symmetry; apply insert_index_perm|].
      constructor; [left; assumption | assumption].
Qed.

Lemma insertion_sorted (a : list Q) (len start : nat) :
  StronglySorted (stable_lt a)
                 (fold_right (insert_index a) [] (seq start len)).
Proof.
  revert start; induction len as [|len IH]; intros start; cbn; [constructor|].
  apply insert_index_sorted; [apply IH|].
  eapply Permutation_Forall; [symmetry; apply insertion_perm|].
  apply Forall_forall. intros j Hj. apply in_seq in Hj. lia.
Qed.

#[export] Instance insertion_argsort_spec : ArgsortSpec insertion_argsort.
Proof.
  split; intros a; unfold insertion_argsort.
  - apply insertion_perm.
  - apply (proj1 (StronglySorted_map Qle (at_index a) _)).
    eapply StronglySorted_impl; [|apply insertion_sorted].
    apply stable_lt_le.
Qed.

Lemma insert_after_perm (a : list Q) (i : nat) (l : list nat) :
  Permutation (insert_after a i l) (i :: l).
Proof.
  induction l as [|j l IH]; cbn; [reflexivity|].
  destruct (Qle_bool (at_index a j) (at_index a i)); [|reflexivity].
  rewrite IH. apply perm_swap.
Qed.

Lemma insert_after_sorted (a : list Q) (i : nat) (l : list nat) :
  StronglySorted (fun x y => at_index a x <= at_index a y) l ->
  StronglySorted (fun x y => at_index a x <= at_index a y) (insert_after a i l).
Proof.
  induction 1 as [|j l HS IH Hj]; cbn.
  - repeat constructor.
  - destruct (Qle_bool (at_index a j) (at_index a i)) eqn:E.
    + apply Qle_bool_iff in E. constructor; [assumption|].
      eapply Permutation_Forall; [symmetry; apply insert_after_perm|].
      constructor; assumption.
    + assert (Hlt : at_index a i < at_index a j).
      { apply Qnot_le_lt. intros H. apply Qle_bool_iff in H. congruence. }
      constructor; [constructor; assumption|].
      constructor; [lra|].
      eapply Forall_impl; [|exact Hj]. cbn. intros x Hx. lra.
Qed.

#[export] Instance unstable_argsort_spec : ArgsortSpec unstable_argsort.
Proof.
  split; intros a; unfold unstable_argsort.
  - induction (seq 0 (List.length a)) as [|i l IH]; cbn; [reflexivity|].
    rewrite insert_after_perm. now constructor.
  - apply (proj1 (StronglySorted_map Qle (at_index a) _)).
    induction (seq 0 (List.length a)) as [|i l IH]; cbn; [constructor|].
    now apply insert_after_sorted.
Qed.

Lemma insertion_argsort_stable : argsort_stable insertion_argsort.
Proof.
  intros a p p' i j Hlt Hi Hj Heq.
  pose proof (StronglySorted_nth_error _ _ _ _ _ _
                (insertion_sorted a (List.length a) 0) Hlt Hi Hj) as [H | [_ H]].
  - lra.
  - exact H.
Qed.

(** * Properties of BaselineRAG *)

(** *** What [flag_memory] touches *)

Lemma mark_flagged_id (m : memory) :
  memory_id (mark_flagged m) = memory_id m.
Proof. reflexivity. Qed.

(** The loop rewrites exactly the first memory with the id. *)
Lemma flag_first_Some (id : string) (ms ms' : list memory) :
  flag_first id ms = Some ms' ->
  exists pre m post,
    ms = pre ++ m :: post /\
    ms' = pre ++ mark_flagged m :: post /\
    String.eqb (memory_id m) id = true /\
    Forall (fun x => String.eqb (memory_id x) id = false) pre.
Proof.
  revert ms'; induction ms as [|x rest IH]; intros ms' H; simpl in H.
  - discriminate.
  - destruct (String.eqb (memory_id x) id) eqn:E.
    + injection H as <-. exists [], x, rest. repeat split; auto.
    + destruct (flag_first id rest) as [r|] eqn:F; simpl in H; [|discriminate].
      injection H as <-.
      destruct (IH r eq_refl) as (pre & m & post & -> & -> & Hm & Hpre).
      exists (x :: pre), m, post. repeat split; auto.
Qed.

Lemma flag_first_None (id : string) (ms : list memory) :
  flag_first id ms = None <-> find_memory id ms = None.
Proof.
  unfold find_memory; induction ms as [|x rest IH]; simpl.
  - tauto.
  - destruct (String.eqb (memory_id x) id).
    + split; discriminate.
    + destruct (flag_first id rest); simpl.
      * split; [discriminate|]. intros H. apply IH in H. discriminate.
      * split; intros _; [apply IH|]; reflexivity.
Qed.

Lemma find_memory_split (id : string) (pre post : list memory) (m : memory) :
  Forall (fun x => String.eqb (memory_id x) id = false) pre ->
  String.eqb (memory_id m) id = true ->
  find_memory id (pre ++ m :: post) = Some m.
Proof.
  unfold find_memory; induction 1 as [|x pre Hx _ IH]; intros Hm; simpl.
  - now rewrite Hm.
  - rewrite Hx. now apply IH.
Qed.

(** Position by position, the loop keeps everything but the trust weight
    and the flag. *)
Lemma flag_first_nth (id : string) (ms ms' : list memory) (i : nat) :
  flag_first id ms = Some ms' ->
  match nth_error ms i, nth_error ms' i with
  | Some m, Some m' =>
      (m' = m \/ m' = mark_flagged m) /\
      (flagged m = Some true -> flagged m' = Some true)
  | None, None => True
  | _, _ => False
  end.
Proof.
  revert ms' i; induction ms as [|x rest IH]; intros ms' i H; simpl in H.
  - discriminate.
  - destruct (String.eqb (memory_id x) id).
    + injection H as <-. destruct i as [|i]; simpl.
      * split; auto.
      * destruct (nth_error rest i); auto.
    + destruct (flag_first id rest) as [r|] eqn:F; simpl in H; [|discriminate].
      injection H as <-. destruct i as [|i]; simpl.
      * split; auto.
      * now apply IH.
Qed.

Lemma flag_first_embedding (id : string) (ms ms' : list memory) :
  flag_first id ms = Some ms' -> map embedding ms' = map embedding ms.
Proof.
  intros H. destruct (flag_first_Some _ _ _ H) as (pre & m & post & -> & -> & _).
  now rewrite !map_app.
Qed.

Lemma flag_memory_embeddings (self : BaselineRAG) id reason :
  embeddings (self_after (flag_memory self id reason)) = embeddings self.
Proof.
  unfold flag_memory. now destruct (flag_first id (memories self)).
Qed.

(** *** Loops that read the same ids and scores *)

Lemma for_each_ranking (ms ms' : list memory) (sims : list Q) (idxs : list nat) :
  (forall i, match nth_error ms i, nth_error ms' i with
             | Some m, Some m' => memory_id m' = memory_id m
             | None, None => True
             | _, _ => False
             end) ->
  scores (for_each (pick ms' sims) idxs) = scores (for_each (pick ms sims) idxs).
Proof.
  intros H. induction idxs as [|i idxs IH]; cbn [for_each]; [reflexivity|].
  unfold pick at 1 3. specialize (H i).
  destruct (nth_error ms i) as [m|], (nth_error ms' i) as [m'|];
    try contradiction; [|reflexivity].
  destruct (nth_error sims i) as [sim|]; [|reflexivity].
  destruct (for_each (pick ms sims) idxs), (for_each (pick ms' sims) idxs);
    cbn in IH |- *; try discriminate; [|assumption].
  injection IH as IH. now rewrite H, IH.
Qed.

(** *** C2: what a flag does to the trust weight *)

(** A memory that the loop finds is rewritten where it stands. *)
Lemma flag_first_find (id : string) (ms : list memory) (m : memory) :
  find_memory id ms = Some m ->
  exists pre post,
    ms = pre ++ m :: post /\
    flag_first id ms = Some (pre ++ mark_flagged m :: post) /\
    find_memory id (pre ++ mark_flagged m :: post) = Some (mark_flagged m).
Proof.
  intros Hfind. destruct (flag_first id ms) as [ms'|] eqn:F.
  - destruct (flag_first_Some _ _ _ F) as (pre & x & post & Hms & -> & Hx & Hpre).
    assert (x = m) as ->.
    { rewrite Hms, (find_memory_split _ _ _ _ Hpre Hx) in Hfind. congruence. }
    exists pre, post. repeat split; auto. now apply find_memory_split.
  - apply flag_first_None in F. congruence.
Qed.

(** C2, as amended. Applying a flag to an id present in the store sets the
    trust weight of the first memory with that id to exactly [0.0],
    whatever it was, and sets its [flagged] key to [True]; the id, content,
    metadata and embedding of that memory, every other memory and the
    embeddings matrix are unchanged, and the call returns normally. *)
Theorem flag_memory_zeroes_trust (self : BaselineRAG) (id : string)
    (reason : option string) (m : memory) :
  find_memory id (memories self) = Some m ->
  exists pre post m',
    memories self = pre ++ m :: post /\
    memories (self_after (flag_memory self id reason)) = pre ++ m' :: post /\
    find_memory id (memories (self_after (flag_memory self id reason))) = Some m' /\
    trust_weight m' = 0 /\
    flagged m' = Some true /\
    (memory_id m', content m', metadata m', embedding m') =
      (memory_id m, content m, metadata m, embedding m) /\
    embeddings (self_after (flag_memory self id reason)) = embeddings self /\
    value (flag_memory self id reason) = Returned tt.
Proof.
  intros Hfind.
  destruct (flag_first_find _ _ _ Hfind) as (pre & post & Hms & F & Hf).
  exists pre, post, (mark_flagged m). unfold flag_memory. rewrite F.
  cbn [self_after memories embeddings value]. repeat split; auto.
Qed.

Lemma count_id_app (id : string) (l1 l2 : list memory) :
  count_id id (l1 ++ l2) = (count_id id l1 + count_id id l2)%nat.
Proof. unfold count_id. now rewrite filter_app, length_app. Qed.

(** *** C6: a flag for an unknown id *)

(** C6, as amended. [flag_memory] for an id that is not in the store raises
    nothing: it prints "Memory not found", returns [None], and leaves the
    store, hence every stored memory, unchanged. *)
Theorem flag_memory_unknown_id (self : BaselineRAG) (id : string)
    (reason : option string) :
  find_memory id (memories self) = None ->
  flag_memory self id reason = mkCall (Returned tt) self [MemoryNotFound id].
Proof.
  intros H. apply flag_first_None in H. unfold flag_memory. now rewrite H.
Qed.

(** *** What every call keeps of the entries *)

Lemma keeps_refl (m : memory) : keeps m m.
Proof. split; auto. Qed.

Lemma Forall2_keeps_refl (ms : list memory) : Forall2 keeps ms ms.
Proof. induction ms; constructor; auto using keeps_refl. Qed.

Lemma extends_refl (ms : list memory) : extends ms ms.
Proof.
  exists ms, []. split; [now rewrite app_nil_r | apply Forall2_keeps_refl].
Qed.

Lemma Forall2_keeps_trans (l1 l2 l3 : list memory) :
  Forall2 keeps l1 l2 -> Forall2 keeps l2 l3 -> Forall2 keeps l1 l3.
Proof.
  intros H; revert l3; induction H as [|a b l1 l2 [Hid Hfl] _ IH]; intros l3 H3;
    inversion H3 as [|b' c l2' l3' [Hid' Hfl'] H3']; subst; constructor; auto.
  split; [congruence | auto].
Qed.

Lemma extends_trans (l1 l2 l3 : list memory) :
  extends l1 l2 -> extends l2 l3 -> extends l1 l3.
Proof.
  intros (k1 & a1 & -> & H1) (k2 & a2 & -> & H2).
  apply Forall2_app_inv_l in H2 as (k2a & k2b & Ha & Hb & ->).
  exists k2a, (k2b ++ a2). split; [now rewrite app_assoc|].
  eapply Forall2_keeps_trans; eauto.
Qed.

Lemma extends_find (id : string) (ms ms' : list memory) (m : memory) :
  extends ms ms' ->
  find_memory id ms = Some m -> flagged m = Some true ->
  exists m', find_memory id ms' = Some m' /\ flagged m' = Some true.
Proof.
  intros (kept & added & -> & H). unfold find_memory.
  induction H as [|a b l1 l2 [Hid Hfl] _ IH]; cbn; [discriminate|].
  rewrite Hid. destruct (String.eqb (memory_id a) id).
  - intros [= ->] Hm. eauto.
  - apply IH.
Qed.

Lemma extends_nth (ms ms' : list memory) (i : nat) (m : memory) :
  extends ms ms' ->
  nth_error ms i = Some m -> flagged m = Some true ->
  exists m', nth_error ms' i = Some m' /\ flagged m' = Some true /\
             memory_id m' = memory_id m.
Proof.
  intros (kept & added & -> & H). revert i.
  induction H as [|a b l1 l2 [Hid Hfl] _ IH]; intros [|i]; cbn;
    try discriminate.
  - intros [= ->] Hm. eauto.
  - apply IH.
Qed.

(** *** The loop of [query] on indices within range *)

Lemma for_each_pick (ms : list memory) (sims : list Q) (idxs : list nat) :
  List.length sims = List.length ms ->
  Forall (fun i => (i < List.length ms)%nat) idxs ->
  exists rs,
    for_each (pick ms sims) idxs = Returned rs /\
    Forall2 (fun i r => exists m, nth_error ms i = Some m /\
                                  r = to_result m (at_index sims i)) idxs rs.
Proof.
  intros Hlen. induction 1 as [|i idxs Hi _ (rs & Hrs & IH)]; cbn [for_each].
  - exists []. split; constructor.
  - unfold pick at 1.
    destruct (nth_error ms i) as [m|] eqn:Hm;
      [|apply nth_error_None in Hm; lia].
    destruct (nth_error sims i) as [sim|] eqn:Hs;
      [|apply nth_error_None in Hs; lia].
    rewrite Hrs. eexists. split; [reflexivity|].
    constructor; [|assumption]. exists m. split; [assumption|].
    unfold at_index. now rewrite (nth_error_nth _ _ _ Hs).
Qed.

Lemma slice_to_split {A : Type} (k : Z) (l : list A) :
  exists rest, l = slice_to k l ++ rest.
Proof.
  unfold slice_to. destruct (0 <=? k)%Z; eexists; symmetry; apply firstn_skipn.
Qed.

Lemma slice_to_length {A : Type} (k : Z) (l : list A) :
  List.length (slice_to k l) =
  if (0 <=? k)%Z then Nat.min (Z.to_nat k) (List.length l)
  else (List.length l - Z.to_nat (- k))%nat.
Proof.
  unfold slice_to. destruct (0 <=? k)%Z; rewrite length_firstn; lia.
Qed.

Section BaselineFacts.

Variable encode : string -> vec.
Variable argsort : list Q -> list nat.

Lemma query_self (self : BaselineRAG) q k :
  self_after (query encode argsort self q k) = self.
Proof.
  unfold query.
  destruct (memories self); [reflexivity|].
  now destruct (embeddings self).
Qed.

(** *** C1: flagging does not move the ranking *)

(** C1. In BaselineRAG flagging is inert with respect to retrieval: for
    every store state, query text and [n_results], the ids returned by
    [query], their order and their relevance scores are the same whether or
    not [flag_memory] was called beforehand (on any id). *)
Theorem flag_memory_inert (self : BaselineRAG) (id : string)
    (reason : option string) (q : string) (k : Z) :
  ranking (query encode argsort
                 (self_after (flag_memory self id reason)) q k) =
  ranking (query encode argsort self q k).
Proof.
  unfold flag_memory.
  destruct (flag_first id (memories self)) as [ms'|] eqn:F; [|reflexivity].
  cbn [self_after]. unfold query, ranking; cbn [memories embeddings].
  destruct (flag_first_Some _ _ _ F) as (pre & m & post & Hms & Hms' & _).
  assert (Hne : exists x xs y ys, memories self = x :: xs /\ ms' = y :: ys).
  { rewrite Hms, Hms'. destruct pre; cbn; do 4 eexists; split; reflexivity. }
  destruct Hne as (x & xs & y & ys & Ex & Ey).
  rewrite Ex, Ey. rewrite <- Ex, <- Ey.
  destruct (embeddings self) as [E|]; cbn [value]; [|reflexivity].
  apply for_each_ranking. intros i.
  pose proof (flag_first_nth _ _ _ i F) as N.
  destruct (nth_error (memories self) i), (nth_error ms' i); auto.
  destruct N as [[-> | ->] _]; reflexivity.
Qed.

(** *** C5: ingesting an id twice *)

Lemma find_memory_app (id : string) (ms extra : list memory) :
  find_memory id ms <> None ->
  find_memory id (ms ++ extra) = find_memory id ms.
Proof.
  unfold find_memory. induction ms as [|m ms IH]; cbn; [congruence|].
  destruct (String.eqb (memory_id m) id); [reflexivity | exact IH].
Qed.

(** C5, as amended. [add_memory] always appends a new entry, with trust
    weight [1.0] and no [flagged] key, and appends its embedding as a new
    last row of the matrix, whether or not the id is already present.  The
    existing entries and rows stay where they are and as they are (content,
    metadata, embedding, trust weight and flag), so that an id already
    present is still looked up at its old entry; where rows and entries
    were aligned the new row stands at the index of the new entry; and the
    store afterwards holds one more entry for that id than before. *)
Theorem add_memory_appends (self : BaselineRAG) (id text : string)
    (md : option dict) :
  let after := self_after (add_memory encode self id text md) in
  let entry := mkMemory id text (match md with Some d => d | None => [] end)
                        (encode text) 1 None in
  let rows := match embeddings self with Some E => E | None => [] end in
  memories after = memories self ++ [entry] /\
  embeddings after = Some (rows ++ [encode text]) /\
  (forall i m, nth_error (memories self) i = Some m ->
               nth_error (memories after) i = Some m) /\
  (forall i row, nth_error rows i = Some row ->
                 nth_error (rows ++ [encode text]) i = Some row) /\
  (aligned self ->
   aligned after /\
   nth_error (memories after) (List.length (memories self)) = Some entry /\
   nth_error (rows ++ [encode text]) (List.length (memories self))
     = Some (encode text)) /\
  (find_memory id (memories self) <> None ->
   find_memory id (memories after) = find_memory id (memories self)) /\
  count_id id (memories after) = S (count_id id (memories self)) /\
  value (add_memory encode self id text md) = Returned tt.
Proof.
  intros after entry rows.
  assert (Hm : memories after = memories self ++ [entry]) by reflexivity.
  assert (He : embeddings after = Some (rows ++ [encode text])).
  { unfold after, rows. cbn. now destruct (embeddings self). }
  split; [exact Hm|]. split; [exact He|].
  split; [|split; [|split; [|split; [|split]]]].
  - intros i m H. rewrite Hm. now apply nth_error_app_l.
  - intros i row H. now apply nth_error_app_l.
  - intros Hal.
    assert (Hrows : rows = map embedding (memories self)).
    { unfold rows, aligned in *. destruct (embeddings self) as [E|];
        [exact Hal | now rewrite Hal]. }
    split; [|split].
    + unfold aligned. rewrite He, Hm, map_app, Hrows. reflexivity.
    + rewrite Hm, nth_error_app2, Nat.sub_diag by lia. reflexivity.
    + rewrite Hrows, nth_error_app2; rewrite length_map; [|lia].
      now rewrite Nat.sub_diag.
  - intros H. rewrite Hm. now apply find_memory_app.
  - rewrite Hm, count_id_app. unfold count_id at 2. cbn.
    rewrite String.eqb_refl. cbn. lia.
  - reflexivity.
Qed.

(** *** C4: trust weights stay within bounds *)

Lemma exec_trust_bounds (self : BaselineRAG) (o : op) :
  Forall (fun m => 0 <= trust_weight m /\ trust_weight m <= 1) (memories self) ->
  Forall (fun m => 0 <= trust_weight m /\ trust_weight m <= 1)
         (memories (exec encode argsort self o)).
Proof.
  intros H. destruct o as [id text md | q k | id reason]; cbn [exec].
  - cbn. apply Forall_app; split; [assumption|].
    constructor; [|constructor]. cbn. split; lra.
  - now rewrite query_self.
  - unfold flag_memory.
    destruct (flag_first id (memories self)) as [ms'|] eqn:F; [|assumption].
    destruct (flag_first_Some _ _ _ F) as (pre & x & post & Hms & -> & _).
    cbn [self_after memories]. rewrite Hms in H.
    apply Forall_app in H as [Hpre Hpost]. inversion Hpost; subst.
    apply Forall_app; split; [assumption|].
    constructor; [|assumption]. cbn. split; lra.
Qed.

Lemma run_invariant (P : BaselineRAG -> Prop) :
  (forall self o, P self -> P (exec encode argsort self o)) ->
  forall ops self, P self -> P (run encode argsort ops self).
Proof.
  intros Hstep ops. unfold run.
  induction ops as [|o ops IH]; intros self H; cbn; auto.
Qed.

(** C4. For every sequence of [add_memory] and [flag_memory] (and [query])
    calls starting from an empty store, every stored memory's trust weight
    lies in [0.0, 1.0]. *)
Theorem trust_weight_bounds (ops : list op) :
  Forall (fun m => 0 <= trust_weight m /\ trust_weight m <= 1)
         (memories (run encode argsort ops init)).
Proof.
  apply (run_invariant
           (fun s => Forall (fun m => 0 <= trust_weight m /\ trust_weight m <= 1)
                            (memories s))).
  - intros self o. apply exec_trust_bounds.
  - constructor.
Qed.

(** *** C9: the flag is sticky *)

Lemma exec_extends (self : BaselineRAG) (o : op) :
  extends (memories self) (memories (exec encode argsort self o)).
Proof.
  destruct o as [id text md | q k | id reason]; cbn [exec].
  - cbn. eexists _, _. split; [reflexivity | apply Forall2_keeps_refl].
  - rewrite query_self. apply extends_refl.
  - unfold flag_memory.
    destruct (flag_first id (memories self)) as [ms'|] eqn:F;
      [|apply extends_refl].
    destruct (flag_first_Some _ _ _ F) as (pre & x & post & -> & -> & _).
    cbn [self_after memories]. eexists _, []. split; [now rewrite app_nil_r|].
    apply Forall2_app; [apply Forall2_keeps_refl|].
    constructor; [|apply Forall2_keeps_refl]. split; auto.
Qed.

Lemma run_extends (ops : list op) (self : BaselineRAG) :
  extends (memories self) (memories (run encode argsort ops self)).
Proof.
  revert self; unfold run; induction ops as [|o ops IH]; intros self; cbn.
  - apply extends_refl.
  - eapply extends_trans; [apply exec_extends | apply IH].
Qed.

(** C9. Once a flag has been applied to a memory (the first entry with the
    id, which is the one [flag_memory] rewrites), its [flagged] field is
    true and stays true under every later sequence of calls; and no call
    clears the flag of any entry, position by position. *)
Theorem flagged_is_sticky (self : BaselineRAG) (id : string)
    (reason : option string) (ops : list op) :
  find_memory id (memories self) <> None ->
  (exists m,
     find_memory id (memories (run encode argsort ops
                       (self_after (flag_memory self id reason)))) = Some m /\
     flagged m = Some true) /\
  (forall i m,
     nth_error (memories self) i = Some m -> flagged m = Some true ->
     exists m', nth_error (memories (run encode argsort ops self)) i = Some m' /\
                flagged m' = Some true /\ memory_id m' = memory_id m).
Proof.
  intros Hin. split.
  - destruct (find_memory id (memories self)) as [m|] eqn:Hfind; [|congruence].
    destruct (flag_first_find _ _ _ Hfind) as (pre & post & _ & F & Hf).
    unfold flag_memory. rewrite F. cbn [self_after].
    eapply extends_find; [apply run_extends | exact Hf | reflexivity].
  - intros i m Hn Hfl. eapply extends_nth; [apply run_extends | exact Hn | exact Hfl].
Qed.

(** *** Alignment of the matrix with the list *)

Lemma exec_aligned (self : BaselineRAG) (o : op) :
  aligned self -> aligned (exec encode argsort self o).
Proof.
  unfold aligned. intros H.
  destruct o as [id text md | q k | id reason]; cbn [exec].
  - cbn. destruct (embeddings self) as [E|].
    + subst E. unfold np_vstack. now rewrite map_app.
    + now rewrite H.
  - now rewrite query_self.
  - rewrite flag_memory_embeddings. unfold flag_memory.
    destruct (flag_first id (memories self)) as [ms'|] eqn:F; [|assumption].
    cbn [self_after memories]. destruct (embeddings self) as [E|].
    + now rewrite (flag_first_embedding _ _ _ F).
    + rewrite H in F. discriminate.
Qed.

Lemma run_aligned (ops : list op) : aligned (run encode argsort ops init).
Proof.
  apply (run_invariant aligned); [apply exec_aligned | reflexivity].
Qed.

Lemma aligned_np_dot (self : BaselineRAG) (E : list vec) (q : string) :
  aligned self -> embeddings self = Some E ->
  np_dot E (encode q) = map (fun m => similarity encode m q) (memories self).
Proof.
  unfold aligned. intros H HE. rewrite HE in H. subst E.
  unfold np_dot. now rewrite map_map.
Qed.

Lemma at_index_similarity (ms : list memory) (q : string) (i : nat) (m : memory) :
  nth_error ms i = Some m ->
  at_index (map (fun m => similarity encode m q) ms) i = similarity encode m q.
Proof.
  intros H. unfold at_index. apply nth_error_nth.
  now rewrite nth_error_map, H.
Qed.

(** *** Consequences of the contract of [np.argsort] *)

Context {Hspec : ArgsortSpec argsort}.

Lemma argsort_length (a : list Q) :
  List.length (argsort a) = List.length a.
Proof.
  rewrite (Permutation_length (argsort_perm a)). apply length_seq.
Qed.

Lemma argsort_range (a : list Q) (i : nat) :
  In i (argsort a) -> (i < List.length a)%nat.
Proof.
  intros H. apply (Permutation_in _ (argsort_perm a)) in H.
  apply in_seq in H. lia.
Qed.

Lemma top_indices_range (a : list Q) (k : Z) :
  Forall (fun i => (i < List.length a)%nat) (top_indices argsort a k).
Proof.
  apply Forall_forall. intros i Hi. apply argsort_range.
  unfold top_indices in Hi.
  destruct (slice_to_split k (rev (argsort a))) as (rest & E).
  apply in_rev. rewrite E. apply in_or_app. now left.
Qed.

Lemma top_indices_length (a : list Q) (k : Z) :
  List.length (top_indices argsort a k) =
  if (0 <=? k)%Z then Nat.min (Z.to_nat k) (List.length a)
  else (List.length a - Z.to_nat (- k))%nat.
Proof.
  unfold top_indices. now rewrite slice_to_length, length_rev, argsort_length.
Qed.

(** On an aligned store [query] returns, unchanged store and nothing
    printed, one result per selected index: the memory at that index with
    its own similarity. *)
Lemma query_aligned (self : BaselineRAG) (q : string) (k : Z) :
  aligned self ->
  exists rs,
    query encode argsort self q k = mkCall (Returned rs) self [] /\
    Forall2 (fun i r => exists m, nth_error (memories self) i = Some m /\
                                  r = to_result m (similarity encode m q))
            (top_indices argsort
               (map (fun m => similarity encode m q) (memories self)) k)
            rs.
Proof.
  intros Hal. unfold query.
  destruct (memories self) as [|x xs] eqn:Hms.
  - exists []. split; [reflexivity|].
    pose proof (top_indices_length [] k) as L. cbn [map].
    destruct (top_indices argsort [] k); [constructor|].
    cbn in L. destruct (0 <=? k)%Z; lia.
  - rewrite <- Hms. destruct (embeddings self) as [E|] eqn:HE.
    + rewrite (aligned_np_dot self E q Hal HE).
      set (sims := map (fun m => similarity encode m q) (memories self)).
      destruct (for_each_pick (memories self) sims (top_indices argsort sims k))
        as (rs & Hrs & F2).
      * unfold sims. apply length_map.
      * pose proof (top_indices_range sims k) as Hr.
        unfold sims in Hr at 1. now rewrite length_map in Hr.
      * exists rs. rewrite Hrs. split; [reflexivity|].
        eapply Forall2_impl; [|exact F2].
        intros i r (m & Hm & ->). exists m. split; [assumption|].
        unfold sims. now rewrite (at_index_similarity _ q i m Hm).
    + unfold aligned in Hal. rewrite HE in Hal. congruence.
Qed.

(** The selected indices, scored: in descending order, and none of the
    indices left out scores higher than a selected one. *)
Lemma top_indices_sorted (a : list Q) (k : Z) (rest : list nat) :
  rev (argsort a) = top_indices argsort a k ++ rest ->
  StronglySorted (fun i j => at_index a j <= at_index a i)
                 (top_indices argsort a k) /\
  (forall i j, In i (top_indices argsort a k) -> In j rest ->
               at_index a j <= at_index a i).
Proof.
  intros E. pose proof (argsort_sorted a) as S.
  apply (proj2 (StronglySorted_map Qle (at_index a) _)) in S.
  apply StronglySorted_rev in S. rewrite E in S.
  apply StronglySorted_app_inv in S as (S1 & _ & C). split; [exact S1|].
  intros i j Hi Hj. now apply C.
Qed.

(** *** C3: what [query] returns *)

(** C3, as amended. For every store reached from the empty one and every
    [k], [query] returns the memories at the indices
    [np.argsort(similarities)[::-1][:k]], in that order ([min(k, n)] of the
    [n] stored memories when [k >= 0]): each carries as relevance its
    similarity to the query (the inner product of the stored embedding
    with the query embedding), they come in descending order of relevance,
    and no memory left out has a higher similarity than a returned one.
    Ties are not broken by recency: memories of equal similarity come in
    the reverse of the order [np.argsort] lists them in, which is most
    recently inserted first exactly where that sort keeps equal values in
    index order. *)
Theorem query_top_k (ops : list op) (q : string) (k : Z) :
  let self := run encode argsort ops init in
  let ms := memories self in
  let sims := map (fun m => similarity encode m q) ms in
  let idxs := slice_to k (rev (argsort sims)) in
  exists rest rs,
    value (query encode argsort self q k) = Returned rs /\
    rev (argsort sims) = idxs ++ rest /\
    Permutation (idxs ++ rest) (seq 0 (List.length ms)) /\
    List.length rs =
      (if (0 <=? k)%Z then Nat.min (Z.to_nat k) (List.length ms)
       else (List.length ms - Z.to_nat (- k))%nat) /\
    Forall2 (fun i r => exists m, nth_error ms i = Some m /\
                                  r = to_result m (similarity encode m q))
            idxs rs /\
    StronglySorted (fun r r' => relevance r' <= relevance r) rs /\
    (forall i j mi mj,
       In i idxs -> In j rest ->
       nth_error ms i = Some mi -> nth_error ms j = Some mj ->
       similarity encode mj q <= similarity encode mi q) /\
    (argsort_stable argsort ->
     forall p p' i j mi mj,
       (p < p')%nat ->
       nth_error idxs p = Some i -> nth_error idxs p' = Some j ->
       nth_error ms i = Some mi -> nth_error ms j = Some mj ->
       similarity encode mi q == similarity encode mj q ->
       (j < i)%nat).
Proof.
  intros self ms sims idxs.
  destruct (query_aligned self q k (run_aligned ops)) as (rs & Hq & F2).
  fold ms in F2. fold sims in F2.
  destruct (slice_to_split k (rev (argsort sims))) as (rest & E).
  fold idxs in E. change (top_indices argsort sims k) with idxs in F2.
  destruct (top_indices_sorted sims k rest E) as (HS & C).
  change (top_indices argsort sims k) with idxs in HS, C.
  exists rest, rs.
  assert (Hsim : forall i m, nth_error ms i = Some m ->
                             at_index sims i = similarity encode m q).
  { intros i m. apply at_index_similarity. }
  split; [now rewrite Hq|]. split; [exact E|].
  split; [|split; [|split; [exact F2|split; [|split]]]].
  - rewrite <- E, <- Permutation_rev.
    replace (List.length ms) with (List.length sims) by apply length_map.
    apply argsort_perm.
  - rewrite <- (Forall2_length F2).
    change idxs with (top_indices argsort sims k).
    rewrite top_indices_length. unfold sims. now rewrite length_map.
  - eapply Forall2_StronglySorted; [|exact F2|exact HS].
    intros i j r r' (mi & Hi & ->) (mj & Hj & ->) Hle. cbn.
    now rewrite <- (Hsim _ _ Hi), <- (Hsim _ _ Hj).
  - intros i j mi mj Hi Hj Hmi Hmj.
    rewrite <- (Hsim _ _ Hmi), <- (Hsim _ _ Hmj). now apply C.
  - intros Hst p p' i j mi mj Hlt Hp Hp' Hmi Hmj Heq.
    apply (nth_error_app_l _ rest) in Hp, Hp'. rewrite <- E in Hp, Hp'.
    apply nth_error_rev_Some in Hp as (Lp & Hp), Hp' as (Lp' & Hp').
    apply (Hst sims (List.length (argsort sims) - S p')%nat
               (List.length (argsort sims) - S p)%nat j i);
      [lia | exact Hp' | exact Hp |].
    rewrite (Hsim _ _ Hmi), (Hsim _ _ Hmj). symmetry. exact Heq.
Qed.

(** *** C8: how many results *)

(** C8, as amended. For every [k], querying a store without memories
    returns the empty list without error, and querying a store holding
    [n < k] memories returns exactly [n] results; for every [k >= 0],
    [query] returns at most [k] results.  (For [k < 0] the slice drops the
    last [-k] of the [n] indices instead.) *)
Theorem query_result_count (ops : list op) (q : string) (k : Z) :
  let self := run encode argsort ops init in
  let n := List.length (memories self) in
  (memories self = [] ->
   query encode argsort self q k = mkCall (Returned []) self []) /\
  exists rs,
    value (query encode argsort self q k) = Returned rs /\
    ((Z.of_nat n < k)%Z -> List.length rs = n) /\
    ((0 <= k)%Z -> (Z.of_nat (List.length rs) <= k)%Z) /\
    ((k < 0)%Z -> List.length rs = (n - Z.to_nat (- k))%nat).
Proof.
  intros self n. split.
  { intros H. unfold query. now rewrite H. }
  destruct (query_aligned self q k (run_aligned ops)) as (rs & Hq & F2).
  exists rs. split; [now rewrite Hq|].
  apply Forall2_length in F2. rewrite top_indices_length, length_map in F2.
  fold n in F2. rewrite <- F2.
  destruct (Z.leb_spec 0 k); repeat split; intros; lia.
Qed.

(** *** C10: rows and memories stay aligned *)

(** C10. In every reachable state the embeddings matrix has one row per
    entry of the memories list, row [i] being the stored embedding of
    [memories[i]]; every operation preserves this alignment; and [query]
    returns, each result being a stored memory paired with the similarity
    computed from that memory's own row. *)
Theorem embeddings_aligned (ops : list op) :
  let self := run encode argsort ops init in
  aligned self /\
  (forall E, embeddings self = Some E ->
     List.length E = List.length (memories self) /\
     forall i m, nth_error (memories self) i = Some m ->
                 nth_error E i = Some (embedding m)) /\
  (forall s o, aligned s -> aligned (exec encode argsort s o)) /\
  (forall q k, exists rs,
     value (query encode argsort self q k) = Returned rs /\
     Forall (fun r => exists i m E,
                nth_error (memories self) i = Some m /\
                embeddings self = Some E /\
                nth_error E i = Some (embedding m) /\
                r = to_result m (dot (embedding m) (encode q))) rs).
Proof.
  intros self. pose proof (run_aligned ops) as Hal. fold self in Hal.
  assert (Hrows : forall E, embeddings self = Some E ->
            List.length E = List.length (memories self) /\
            forall i m, nth_error (memories self) i = Some m ->
                        nth_error E i = Some (embedding m)).
  { intros E HE. unfold aligned in Hal. rewrite HE in Hal. subst E.
    split; [apply length_map|]. intros i m Hm. now rewrite nth_error_map, Hm. }
  split; [exact Hal|]. split; [exact Hrows|]. split; [apply exec_aligned|].
  intros q k. destruct (query_aligned self q k Hal) as (rs & Hq & F2).
  exists rs. split; [now rewrite Hq|].
  eapply Forall2_Forall with (Q := fun _ => True);
    [|exact F2|apply Forall_forall; auto].
  intros i r (m & Hm & ->) _.
  destruct (embeddings self) as [E|] eqn:HE.
  - exists i, m, E. repeat split; auto. now apply (Hrows E eq_refl).
  - unfold aligned in Hal. rewrite HE in Hal. rewrite Hal in Hm.
    destruct i; discriminate.
Qed.

End BaselineFacts.

(** * BaselineRAG on the example stores *)

(** C2, as the specification states it, fails: one flag takes a trust
    weight of [1.0] to exactly [0.0], which no decay factor in (0,1) and no
    floor produce. *)
Lemma flag_memory_not_decay :
  exists m m',
    find_memory "doc1" (memories doc1_store) = Some m /\
    0 < trust_weight m /\
    find_memory "doc1"
      (memories (self_after (flag_memory doc1_store "doc1" None))) = Some m' /\
    trust_weight m' == 0 /\
    forall floor d, 0 < d -> d < 1 ->
      ~ trust_weight m' == decayed floor d (trust_weight m).
Proof.
  eexists _, _. split; [reflexivity|]. split; [reflexivity|].
  split; [reflexivity|]. split; [reflexivity|].
  intros floor d Hd _ H. cbn in H. unfold decayed in H.
  pose proof (Q.le_max_r floor (1 * d)) as Hmax. lra.
Qed.

Lemma flag_memory_zeroes_trust_witness :
  exists m,
    find_memory "doc1" (memories doc1_store) = Some m /\
    exists m',
      find_memory "doc1"
        (memories (self_after (flag_memory doc1_store "doc1" None))) = Some m' /\
      trust_weight m' = 0 /\ flagged m' = Some true.
Proof.
  eexists. split; [reflexivity|].
  destruct (flag_memory_zeroes_trust doc1_store "doc1" None _ eq_refl)
    as (pre & post & m' & _ & _ & Hf & Ht & Hfl & _).
  exists m'. repeat split; assumption.
Defined.

(** C3, as the specification states it, fails: ties are not broken by
    recency.  Of four memories the first two tie for the highest
    similarity; [np.argsort] lists the scores [5; 5; 3; 2] as the indices
    [3; 2; 1; 0] (its default kind is not a stable sort), and [query]
    returns the older of the two tied memories first. *)
Lemma query_ties_oldest_first :
  map memory_id (memories tied_store) = ["a"; "b"; "c"; "d"] /\
  map (fun m => similarity toy_encode m "q") (memories tied_store)
    = [5; 5; 3; 2] /\
  unstable_argsort [5; 5; 3; 2] = [3; 2; 1; 0]%nat /\
  exists r1 r2,
    value (query toy_encode unstable_argsort tied_store "q" 2)
      = Returned [r1; r2] /\
    r_memory_id r1 = "a" /\ r_memory_id r2 = "b" /\
    relevance r1 == relevance r2.
Proof.
  repeat split. eexists _, _. repeat split; reflexivity.
Qed.

Lemma query_top_k_witness :
  exists rs,
    value (query toy_encode insertion_argsort three_store "q" 2) = Returned rs /\
    List.length rs = 2%nat /\
    StronglySorted (fun r r' => relevance r' <= relevance r) rs.
Proof.
  destruct (query_top_k toy_encode insertion_argsort
              [AddMemory "a" "xx" None; AddMemory "b" "xxxx" None;
               AddMemory "c" "xx" None; FlagMemory "b" (Some "outdated")]
              "q" 2)
    as (rest & rs & Hv & _ & _ & Hl & _ & Hs & _).
  exists rs. repeat split; assumption.
Defined.

(** C5, as the specification states it, fails: ingesting an id a second
    time leaves two entries for it, the first with its old content. *)
Lemma reingest_adds_second_entry :
  count_id "doc1" (memories doc1_store) = 1%nat /\
  self_after (add_memory toy_encode doc1_store "doc1" "Office is in SF" None)
    = reingested_store /\
  count_id "doc1" (memories reingested_store) = 2%nat /\
  map content (memories reingested_store) =
    ["Office is in NYC"; "Office is in SF"].
Proof. repeat split. Qed.

(** C6, as the specification states it, fails: a flag for an unknown id
    returns normally. *)
Lemma flag_memory_unknown_returns :
  find_memory "ghost" (memories doc1_store) = None /\
  value (flag_memory doc1_store "ghost" None) = Returned tt /\
  value (flag_memory doc1_store "ghost" None) <> Raised NotFoundError.
Proof. repeat split. discriminate. Qed.

Lemma flag_memory_unknown_id_witness :
  find_memory "ghost" (memories doc1_store) = None /\
  flag_memory doc1_store "ghost" None =
    mkCall (Returned tt) doc1_store [MemoryNotFound "ghost"].
Proof.
  split; [reflexivity|]. apply flag_memory_unknown_id. reflexivity.
Defined.

(** C8, as the specification states it, fails: with [k = -1] a store of
    three memories returns two results, more than [k]. *)
Lemma query_negative_k :
  exists rs,
    value (query toy_encode insertion_argsort three_store "q" (-1))
      = Returned rs /\
    List.length rs = 2%nat /\
    (Z.of_nat (List.length rs) > -1)%Z.
Proof. eexists. repeat split. Qed.

Lemma query_result_count_witness :
  exists rs,
    value (query toy_encode insertion_argsort three_store "q" 5) = Returned rs /\
    List.length rs = 3%nat.
Proof.
  destruct (query_result_count toy_encode insertion_argsort
              [AddMemory "a" "xx" None; AddMemory "b" "xxxx" None;
               AddMemory "c" "xx" None; FlagMemory "b" (Some "outdated")]
              "q" 5)
    as (_ & rs & Hv & Hn & _).
  exists rs. split; [exact Hv|]. apply Hn. reflexivity.
Defined.

Lemma flagged_is_sticky_witness :
  find_memory "doc1" (memories doc1_store) <> None /\
  exists m,
    find_memory "doc1"
      (memories (run toy_encode insertion_argsort
                     [AddMemory "doc1" "Office is in SF" None;
                      Query "office location" 3;
                      FlagMemory "doc2" None]
                     (self_after (flag_memory doc1_store "doc1" None))))
      = Some m /\
    flagged m = Some true.
Proof.
  assert (H : find_memory "doc1" (memories doc1_store) <> None) by discriminate.
  split; [exact H|].
  exact (proj1 (flagged_is_sticky toy_encode insertion_argsort doc1_store
                  "doc1" None _ H)).
Defined.

Lemma embeddings_aligned_witness :
  aligned three_store /\
  exists rs,
    value (query toy_encode insertion_argsort three_store "q" 3) = Returned rs.
Proof.
  destruct (embeddings_aligned toy_encode insertion_argsort
              [AddMemory "a" "xx" None; AddMemory "b" "xxxx" None;
               AddMemory "c" "xx" None; FlagMemory "b" (Some "outdated")])
    as (Hal & _ & _ & Hq).
  split; [exact Hal|].
  destruct (Hq "q" 3%Z) as (rs & Hv & _). exists rs. exact Hv.
Defined.

(** * Properties of MemoryGateClient *)

Section ClientFacts.

Variable requests_post : string -> string -> payload -> post_outcome.

Lemma in_success_queued_true (v : option json) :
  in_success_queued v = true <->
  exists s, v = Some (JString s) /\ (s = "success" \/ s = "queued").
Proof.
  split.
  - destruct v as [[| | |s| |]|]; cbn; try discriminate.
    intros H. exists s. split; [reflexivity|].
    apply orb_true_iff in H as [H | H]; apply String.eqb_eq in H; auto.
  - intros (s & -> & [-> | ->]); reflexivity.
Qed.

(** A request exception raised in the [try] block makes [feedback] return
    [False]. *)
Lemma feedback_request_exception (self : MemoryGateClient) (id action : string)
    (role : option string) (e : request_exception) :
  fst (feedback_try requests_post self id action role) = RequestException e ->
  fst (feedback requests_post self id action role) = Returned false.
Proof.
  unfold feedback. destruct (feedback_try requests_post self id action role)
    as [[b | e' | e'] out]; cbn; intros H; try discriminate. reflexivity.
Qed.

(** C7. [MemoryGateClient.feedback] returns [True] if and only if the HTTP
    request completes without a request exception ([requests.post] returns,
    the status code is not 4xx/5xx, the body decodes) and the [status]
    field of the response body is "success" or "queued"; on any request
    exception it returns [False]. *)
Theorem feedback_true_iff (self : MemoryGateClient) (id action : string)
    (role : option string) :
  let sent := requests_post (api_url self ++ "/v1/feedback")%string
                            (api_key self) (feedback_payload id action role) in
  (fst (feedback requests_post self id action role) = Returned true <->
   exists r fields s,
     sent = PostReturns r /\
     raise_for_status r = None /\
     decoded r = Some (JObject fields) /\
     dict_get "status" fields = Some (JString s) /\
     (s = "success" \/ s = "queued")) /\
  (forall e, sent = PostRaises e ->
     fst (feedback requests_post self id action role) = Returned false) /\
  (forall r e, sent = PostReturns r -> raise_for_status r = Some e ->
     fst (feedback requests_post self id action role) = Returned false) /\
  (forall r, sent = PostReturns r -> decoded r = None ->
     fst (feedback requests_post self id action role) = Returned false).
Proof.
  intros sent. unfold feedback, feedback_try. fold sent.
  split; [|repeat split].
  - destruct sent as [e | r | e]; cbn.
    { split; [discriminate | intros (r & f & s & H & _); discriminate]. }
    2:{ split; [discriminate | intros (r & f & s & H & _); discriminate]. }
    destruct (raise_for_status r) as [e|] eqn:Hs; cbn.
    { split; [discriminate|]. intros (r' & f & s & [= <-] & H & _). congruence. }
    destruct (decoded r) as [body|] eqn:Hd; cbn.
    2:{ split; [discriminate|]. intros (r' & f & s & [= <-] & _ & H & _). congruence. }
    destruct body as [| b | n | s | items | fields]; cbn;
      try (split; [discriminate|];
           intros (r' & f & s' & [= <-] & _ & H & _); congruence).
    split.
    + intros [= H]. apply in_success_queued_true in H as (s & Hs' & Hor).
      exists r, fields, s. auto.
    + intros (r' & f & s & [= <-] & _ & Hf & Hg & Hor).
      rewrite Hd in Hf. injection Hf as <-.
      f_equal. apply in_success_queued_true. eauto.
  - intros e ->. reflexivity.
  - intros r e -> ->. reflexivity.
  - intros r -> Hd. destruct (raise_for_status r); [reflexivity|].
    now rewrite Hd.
Qed.

End ClientFacts.

(** * Further properties of BaselineRAG *)

(** *** The list after a flag *)

Lemma flag_memory_self_after (self : BaselineRAG) (id : string)
    (reason : option string) :
  self_after (flag_memory self id reason) =
  mkRAG (flag_list id (memories self)) (embeddings self).
Proof.
  unfold flag_memory, flag_list.
  destruct (flag_first id (memories self)); [reflexivity|].
  now destruct self.
Qed.

Lemma flag_list_cons (id : string) (m : memory) (rest : list memory) :
  flag_list id (m :: rest) =
  if String.eqb (memory_id m) id then mark_flagged m :: rest
  else m :: flag_list id rest.
Proof.
  unfold flag_list; cbn.
  destruct (String.eqb (memory_id m) id); [reflexivity|].
  now destruct (flag_first id rest).
Qed.

Lemma flag_list_fields (id : string) (ms : list memory) :
  map ingested_fields (flag_list id ms) = map ingested_fields ms.
Proof.
  induction ms as [|m rest IH]; [reflexivity|].
  rewrite flag_list_cons. destruct (String.eqb (memory_id m) id); cbn.
  - reflexivity.
  - now rewrite IH.
Qed.

Lemma flag_list_idempotent (id : string) (ms : list memory) :
  flag_list id (flag_list id ms) = flag_list id ms.
Proof.
  induction ms as [|m rest IH]; [reflexivity|].
  rewrite flag_list_cons. destruct (String.eqb (memory_id m) id) eqn:E.
  - rewrite flag_list_cons, mark_flagged_id, E. reflexivity.
  - rewrite flag_list_cons, E. now rewrite IH.
Qed.

Lemma flag_list_commute (id1 id2 : string) (ms : list memory) :
  flag_list id2 (flag_list id1 ms) = flag_list id1 (flag_list id2 ms).
Proof.
  induction ms as [|m rest IH]; [reflexivity|].
  rewrite (flag_list_cons id1), (flag_list_cons id2).
  destruct (String.eqb (memory_id m) id1) eqn:E1,
           (String.eqb (memory_id m) id2) eqn:E2;
    rewrite !flag_list_cons, ?mark_flagged_id, ?E1, ?E2; try reflexivity.
  now rewrite IH.
Qed.

(** Where an id occurs at most once, the loop rewrites every memory with
    that id. *)
Lemma flag_list_unique (id : string) (ms : list memory) :
  (count_id id ms <= 1)%nat ->
  flag_list id ms =
  map (fun m => if String.eqb (memory_id m) id then mark_flagged m else m) ms.
Proof.
  induction ms as [|m rest IH]; [reflexivity|].
  rewrite flag_list_cons. unfold count_id; cbn.
  destruct (String.eqb (memory_id m) id) eqn:E; cbn; intros H.
  - f_equal. assert (H0 : count_id id rest = 0%nat) by (unfold count_id; lia).
    clear -H0. induction rest as [|x rest IH]; [reflexivity|].
    unfold count_id in H0; cbn in H0 |- *.
    destruct (String.eqb (memory_id x) id); [discriminate|].
    f_equal. now apply IH.
  - f_equal. now apply IH.
Qed.

(** X3. Flagging an id a second time changes nothing: the store after two
    flags of the same id is the store after one (the reasons may differ). *)
Theorem flag_memory_idempotent (self : BaselineRAG) (id : string)
    (r1 r2 : option string) :
  self_after (flag_memory (self_after (flag_memory self id r1)) id r2) =
  self_after (flag_memory self id r1).
Proof.
  rewrite !flag_memory_self_after; cbn [memories embeddings].
  now rewrite flag_list_idempotent.
Qed.

(** X4. Flags commute: flagging two ids in either order leaves the same
    store. *)
Theorem flag_memory_commute (self : BaselineRAG) (id1 id2 : string)
    (r1 r2 : option string) :
  self_after (flag_memory (self_after (flag_memory self id1 r1)) id2 r2) =
  self_after (flag_memory (self_after (flag_memory self id2 r2)) id1 r1).
Proof.
  rewrite !flag_memory_self_after; cbn [memories embeddings].
  now rewrite flag_list_commute.
Qed.

Section BaselineMore.

Variable encode : string -> vec.
Variable argsort : list Q -> list nat.

(** *** What the store records *)

(** X1. The store records exactly the [add_memory] calls made, in call
    order: after any sequence of calls from the empty store, the ids,
    contents and metadata of the memories are those passed to [add_memory],
    and each stored embedding is the embedder's output for the stored
    content.  No call removes, reorders or rewrites them. *)
Theorem store_records_added (ops : list op) :
  map ingested_fields (memories (run encode argsort ops init)) =
  map (fun a => match a with (id, text, md) => (id, text, md, encode text) end)
      (added ops).
Proof.
  assert (H : forall ops self,
    map ingested_fields (memories (run encode argsort ops self)) =
    map ingested_fields (memories self) ++
    map (fun a => match a with (id, text, md) => (id, text, md, encode text) end)
        (added ops)).
  { clear ops. unfold run. induction ops as [|o ops IH]; intros self; cbn [fold_left].
    - cbn. now rewrite app_nil_r.
    - rewrite IH.
      destruct o as [id text md | q k | id reason]; cbn [exec added flat_map].
      + cbn [add_memory self_after memories]. rewrite map_app. cbn [map app].
        now rewrite <- app_assoc.
      + now rewrite query_self.
      + rewrite flag_memory_self_after; cbn [memories].
        now rewrite flag_list_fields. }
  now rewrite H.
Qed.

(** X2. In every reachable store a memory is in one of two conditions:
    never flagged, with trust weight [1.0] and no [flagged] key, or
    flagged, with trust weight [0.0] and [flagged] set to [True].  The
    key is never [False], and the trust weight takes no other value. *)
Theorem trust_follows_flag (ops : list op) :
  Forall (fun m => (trust_weight m = 1 /\ flagged m = None) \/
                   (trust_weight m = 0 /\ flagged m = Some true))
         (memories (run encode argsort ops init)).
Proof.
  apply (run_invariant encode argsort
           (fun s => Forall (fun m => (trust_weight m = 1 /\ flagged m = None) \/
                                      (trust_weight m = 0 /\ flagged m = Some true))
                            (memories s))).
  - intros self o H. destruct o as [id text md | q k | id reason]; cbn [exec].
    + cbn. apply Forall_app; split; [assumption|].
      constructor; [|constructor]. left; split; reflexivity.
    + now rewrite query_self.
    + rewrite flag_memory_self_after; cbn [memories].
      induction H as [|m rest Hm Hrest IH]; [constructor|].
      rewrite flag_list_cons. destruct (String.eqb (memory_id m) id).
      * constructor; [right; split; reflexivity | assumption].
      * constructor; assumption.
  - constructor.
Qed.

(** *** Reading the results off the indices *)

Lemma results_of_indices (ms : list memory) (q : string) (idxs : list nat)
    (rs : list result) :
  Forall2 (fun i r => exists m, nth_error ms i = Some m /\
                                r = to_result m (similarity encode m q))
          idxs rs ->
  rs = flat_map (fun i => match nth_error ms i with
                          | Some m => [to_result m (similarity encode m q)]
                          | None => []
                          end) idxs.
Proof.
  induction 1 as [|i r idxs rs (m & Hm & ->) _ IH]; [reflexivity|].
  cbn. rewrite Hm. cbn. now rewrite <- IH.
Qed.

Lemma results_of_all_indices (pre ms : list memory) (q : string) :
  flat_map (fun i => match nth_error (pre ++ ms) i with
                     | Some m => [to_result m (similarity encode m q)]
                     | None => []
                     end) (seq (List.length pre) (List.length ms)) =
  map (fun m => to_result m (similarity encode m q)) ms.
Proof.
  revert pre; induction ms as [|m ms IH]; intros pre; [reflexivity|].
  cbn [List.length seq flat_map map].
  rewrite nth_error_app2, Nat.sub_diag by lia. cbn [nth_error app]. f_equal.
  specialize (IH (pre ++ [m])).
  rewrite <- app_assoc, length_app, Nat.add_comm in IH. exact IH.
Qed.

Context {Hspec : ArgsortSpec argsort}.

(** X5. Asked for at least as many results as there are memories, [query]
    returns every stored memory exactly once, each with its similarity to
    the query: the result list is a permutation of the store. *)
Theorem query_returns_all (ops : list op) (q : string) (k : Z) :
  let self := run encode argsort ops init in
  (Z.of_nat (List.length (memories self)) <= k)%Z ->
  exists rs,
    value (query encode argsort self q k) = Returned rs /\
    Permutation rs (map (fun m => to_result m (similarity encode m q))
                        (memories self)).
Proof.
  intros self Hk.
  destruct (query_aligned encode argsort self q k (run_aligned encode argsort ops))
    as (rs & Hq & F2).
  exists rs. split; [now rewrite Hq|].
  apply results_of_indices in F2. rewrite F2.
  set (sims := map (fun m => similarity encode m q) (memories self)).
  assert (Hall : top_indices argsort sims k = rev (argsort sims)).
  { unfold top_indices, slice_to.
    replace (0 <=? k)%Z with true by (symmetry; apply Z.leb_le; lia).
    apply firstn_all2. rewrite length_rev, (argsort_length argsort).
    unfold sims. rewrite length_map. lia. }
  rewrite Hall, <- (results_of_all_indices [] (memories self) q).
  apply Permutation_flat_map. rewrite <- Permutation_rev.
  replace (List.length (memories self)) with (List.length sims)
    by apply length_map.
  apply argsort_perm.
Qed.

(** X6. Flagging does not take a memory out of the results, it only shows
    in them: where the id occurs at most once in the store, the query that
    returned [rs] before the flag returns, after it, the same list with the
    flagged memory's trust weight read as [0.0] and its [flagged] key as
    [True]. *)
Theorem flagged_memory_still_returned (ops : list op) (id : string)
    (reason : option string) (q : string) (k : Z) :
  let self := run encode argsort ops init in
  (count_id id (memories self) <= 1)%nat ->
  exists rs,
    value (query encode argsort self q k) = Returned rs /\
    value (query encode argsort (self_after (flag_memory self id reason)) q k)
      = Returned (map (mark_result id) rs).
Proof.
  intros self Hu.
  pose proof (run_aligned encode argsort ops) as Hal. fold self in Hal.
  pose proof (exec_aligned encode argsort self (FlagMemory id reason) Hal) as Hal'.
  cbn [exec] in Hal'.
  destruct (query_aligned encode argsort self q k Hal) as (rs & Hq & F2).
  destruct (query_aligned encode argsort _ q k Hal') as (rs' & Hq' & F2').
  exists rs. rewrite Hq, Hq'. split; [reflexivity|]. cbn [value]. f_equal.
  rewrite flag_memory_self_after in F2'; cbn [memories] in F2'.
  rewrite (flag_list_unique id _ Hu), map_map in F2'.
  rewrite (map_ext _ (fun m => similarity encode m q)) in F2'
    by (intros m; destruct (String.eqb (memory_id m) id); reflexivity).
  clear Hq Hq'. revert rs' F2'.
  induction F2 as [|i r idxs rs (m & Hm & ->) _ IH]; intros rs' F2';
    inversion F2' as [|i' r' idxs' rs'' (m' & Hm' & ->) F2'']; subst;
    [reflexivity|].
  cbn [map]. f_equal; [|now apply IH].
  rewrite nth_error_map, Hm in Hm'. cbn in Hm'. injection Hm' as <-.
  unfold mark_result, to_result; cbn.
  destruct (String.eqb (memory_id m) id); reflexivity.
Qed.

End BaselineMore.

(** * Further properties of MemoryGateClient *)

(** *** Stripping the trailing slashes *)

Lemma rstrip_split (c : ascii) (s : string) :
  exists n, s = (rstrip c s ++ repeat_char c n)%string.
Proof.
  induction s as [|a rest (n & IH)]; cbn.
  - exists 0%nat. reflexivity.
  - destruct (Ascii.eqb a c) eqn:Ea; cbn.
    + destruct (String.eqb (rstrip c rest) "") eqn:Er; cbn.
      * apply Ascii.eqb_eq in Ea. apply String.eqb_eq in Er.
        rewrite Er in IH. cbn in IH. exists (S n). cbn. now rewrite Ea, <- IH.
      * exists n. now rewrite <- IH.
    + exists n. now rewrite <- IH.
Qed.

Lemma rstrip_no_trailing (c : ascii) (s t : string) :
  rstrip c s <> (t ++ String c "")%string.
Proof.
  revert t; induction s as [|a rest IH]; intros t; cbn.
  - destruct t; discriminate.
  - destruct (Ascii.eqb a c && String.eqb (rstrip c rest) "") eqn:E.
    + destruct t; discriminate.
    + destruct t as [|b t]; cbn; intros H; injection H as Ha Hr.
      * subst a. rewrite Hr, Ascii.eqb_refl in E. discriminate.
      * exact (IH t Hr).
Qed.

(** X7. A constructed client's base URL never ends in a slash: it is the
    URL given (the parameter when it is a non-empty string, else the
    environment variable, else the default) without its trailing slashes,
    so that every endpoint is the base URL, one slash, and the path. *)
Theorem client_init_url (getenv : string -> option string)
    (key url : option string) (c : MemoryGateClient) :
  fst (client_init getenv key url) = Constructed c ->
  let given :=
    match url with
    | Some u => if String.eqb u "" then
                  match getenv "MEMORYGATE_API_URL" with
                  | Some e => e | None => default_api_url end
                else u
    | None => match getenv "MEMORYGATE_API_URL" with
              | Some e => e | None => default_api_url end
    end in
  (exists n, given = (api_url c ++ repeat_char "/" n)%string) /\
  (forall t, api_url c <> (t ++ "/")%string).
Proof.
  unfold client_init, py_or.
  set (env_url := match getenv "MEMORYGATE_API_URL" with
                  | Some e => e | None => default_api_url end).
  set (raw := match (if truthy url then url else Some env_url) with
              | Some u => u | None => env_url end).
  intros H.
  assert (Hraw : raw = match url with
                       | Some u => if String.eqb u "" then env_url else u
                       | None => env_url
                       end).
  { unfold raw, truthy. destruct url as [u|]; [|reflexivity].
    now destruct (String.eqb u ""). }
  assert (Hc : api_url c = rstrip "/" raw).
  { destruct (if truthy key then key else getenv "MEMORYGATE_API_KEY") as [k|];
      [|discriminate].
    destruct (String.eqb k ""); [discriminate|].
    cbn in H. now injection H as <-. }
  rewrite Hc, <- Hraw. split; [apply rstrip_split | apply rstrip_no_trailing].
Qed.

(** X8. Construction exits with status 1 exactly when neither the
    parameter nor the environment variable gives a non-empty API key;
    otherwise the client is built with the parameter when it is non-empty
    and with the environment variable when it is not, so a constructed
    client never carries an empty key. *)
Theorem client_init_key (getenv : string -> option string)
    (key url : option string) :
  (fst (client_init getenv key url) = SystemExit 1 <->
   truthy key = false /\ truthy (getenv "MEMORYGATE_API_KEY") = false) /\
  (forall c, fst (client_init getenv key url) = Constructed c ->
     api_key c <> "" /\
     Some (api_key c) =
       (if truthy key then key else getenv "MEMORYGATE_API_KEY")) /\
  (forall code, fst (client_init getenv key url) = SystemExit code ->
     code = 1%Z /\ snd (client_init getenv key url) = [KeyMissing]).
Proof.
  unfold client_init, py_or.
  destruct (truthy key) eqn:Tk.
  - destruct key as [k|]; [|discriminate]. cbn in Tk.
    destruct (String.eqb k "") eqn:Ek; [discriminate|]. cbn.
    repeat split; try discriminate.
    + intros [H _]; discriminate.
    + injection H as <-. cbn. intros ->. discriminate.
    + injection H as <-. reflexivity.
  - destruct (getenv "MEMORYGATE_API_KEY") as [k|]; cbn.
    + destruct (String.eqb k "") eqn:Ek; cbn.
      * repeat split; try discriminate; injection H as <-; reflexivity.
      * repeat split; try discriminate.
        -- intros [_ H]; discriminate.
        -- injection H as <-. cbn. intros ->. discriminate.
        -- injection H as <-. reflexivity.
    + repeat split; try discriminate; injection H as <-; reflexivity.
Qed.

Section ClientMoreFacts.

Variable post : string -> string -> request_body -> post_outcome.

Lemma is_success_true (v : option json) :
  is_success v = true <-> v = Some (JString "success").
Proof.
  split.
  - destruct v as [[| | |s| |]|]; cbn; try discriminate.
    intros H. apply String.eqb_eq in H. now subst.
  - intros ->. reflexivity.
Qed.

(** X9. [ingest] returns [True] if and only if the request completes
    without a request exception and the [status] field of the response
    body is "success" (a "queued" status, which [feedback] accepts, does
    not count); on any request exception it returns [False]. *)
Theorem ingest_true_iff (self : MemoryGateClient) (id txt : string)
    (md : option dict) (initial_trust : Q) :
  let sent := post (api_url self ++ "/v1/ingest")%string (api_key self)
                   (IngestBody id txt (match md with Some d => d | None => [] end)
                               initial_trust) in
  (fst (ingest post self id txt md initial_trust) = Returned true <->
   exists r fields,
     sent = PostReturns r /\
     raise_for_status r = None /\
     decoded r = Some (JObject fields) /\
     dict_get "status" fields = Some (JString "success")) /\
  (forall e, fst (ingest_try post self id txt md initial_trust)
             = RequestException e ->
     fst (ingest post self id txt md initial_trust) = Returned false).
Proof.
  intros sent. unfold ingest, ingest_try. fold sent. split.
  - destruct sent as [e | r | e]; cbn.
    { split; [discriminate | intros (r & f & H & _); discriminate]. }
    2:{ split; [discriminate | intros (r & f & H & _); discriminate]. }
    destruct (raise_for_status r) as [e|] eqn:Hs; cbn.
    { split; [discriminate|]. intros (r' & f & [= <-] & H & _). congruence. }
    destruct (decoded r) as [body|] eqn:Hd; cbn.
    2:{ split; [discriminate|]. intros (r' & f & [= <-] & _ & H & _). congruence. }
    destruct body as [| b | n | s | items | fields]; cbn;
      try (split; [discriminate|];
           intros (r' & f & [= <-] & _ & H & _); congruence).
    split.
    + intros [= H]. apply is_success_true in H. exists r, fields. auto.
    + intros (r' & f & [= <-] & _ & Hf & Hg).
      rewrite Hd in Hf. injection Hf as <-.
      f_equal. now apply is_success_true.
  - intros e.
    destruct sent as [e' | r | e']; cbn; [reflexivity| |discriminate].
    destruct (raise_for_status r); cbn; [reflexivity|].
    destruct (decoded r) as [body|]; cbn; [|reflexivity].
    destruct (get_status body); cbn; discriminate.
Qed.



(** X12. [feedback] prints its success line for every exchange that
    completes, whatever the [status] field says: in particular it prints
    "SUCCESS: Feedback applied" and returns [False] when the server
    answers with a status other than "success" or "queued". *)
Theorem feedback_success_line (self : MemoryGateClient) (id action : string)
    (role : option string) :
  let sent := post (api_url self ++ "/v1/feedback")%string (api_key self)
                   (FeedbackBody (feedback_payload id action role)) in
  (In (FeedbackApplied action id)
      (snd (client_feedback post self id action role)) <->
   exists r body, sent = PostReturns r /\ raise_for_status r = None /\
                  decoded r = Some body) /\
  (forall r fields,
     sent = PostReturns r -> raise_for_status r = None ->
     decoded r = Some (JObject fields) ->
     in_success_queued (dict_get "status" fields) = false ->
     client_feedback post self id action role =
       (Returned false, [FeedbackApplied action id])).
Proof.
  intros sent. unfold client_feedback, feedback, feedback_try. fold sent.
  split.
  - destruct sent as [e' | r | e']; cbn.
    { split; [|intros (r & b & H & _); discriminate].
      intros [H | H]; [discriminate|].
      destruct (exception_response e'); cbn in H; intuition discriminate. }
    2:{ split; [contradiction | intros (r & b & H & _); discriminate]. }
    destruct (raise_for_status r) as [e'|] eqn:Hs; cbn.
    { split; [|intros (r' & b & [= <-] & H & _); congruence].
      intros [H | H]; [discriminate|].
      destruct (exception_response e'); cbn in H; intuition discriminate. }
    destruct (decoded r) as [body|] eqn:Hd; cbn.
    2:{ split; [|intros (r' & b & [= <-] & _ & H); congruence].
        intros [H | H]; [discriminate | contradiction]. }
    split; [intros _; eauto|]. intros _.
    destruct (get_status body); cbn; auto.
  - intros r fields -> -> -> Hst. cbn. now rewrite Hst.
Qed.

End ClientMoreFacts.

(** * Properties of load_env_file *)

Section StripFacts.

Variable p : N -> bool.

Lemma lstrip_by_split (s : str) :
  exists pre, s = pre ++ lstrip_by p s /\ forallb p pre = true.
Proof.
  induction s as [|c rest (pre & IH & Hpre)]; cbn.
  - exists []. split; reflexivity.
  - destruct (p c) eqn:E.
    + exists (c :: pre). cbn. rewrite E, Hpre. split; [now rewrite <- IH | reflexivity].
    + exists []. split; reflexivity.
Qed.

Lemma lstrip_by_begins (s : str) : begins_with p (lstrip_by p s) = false.
Proof.
  induction s as [|c rest IH]; cbn; [reflexivity|].
  destruct (p c) eqn:E; [exact IH | cbn; exact E].
Qed.

Lemma lstrip_by_app (pre s : str) :
  forallb p pre = true -> lstrip_by p (pre ++ s) = lstrip_by p s.
Proof.
  induction pre as [|c pre IH]; cbn; [reflexivity|].
  intros H. apply andb_true_iff in H as [-> H]. now apply IH.
Qed.

Lemma lstrip_by_clean (s : str) :
  begins_with p s = false -> lstrip_by p s = s.
Proof. destruct s as [|c rest]; cbn; [reflexivity|]. now intros ->. Qed.

Lemma rstrip_by_split (s : str) :
  exists suf, s = rstrip_by p s ++ suf /\ forallb p suf = true.
Proof.
  unfold rstrip_by. destruct (lstrip_by_split (rev s)) as (pre & H & Hpre).
  exists (rev pre). split.
  - rewrite <- rev_app_distr, <- H. now rewrite rev_involutive.
  - rewrite forallb_forall in Hpre |- *. intros x Hx. apply Hpre.
    now apply in_rev.
Qed.

Lemma rstrip_by_ends (s : str) : ends_with p (rstrip_by p s) = false.
Proof.
  unfold ends_with, rstrip_by. rewrite rev_involutive. apply lstrip_by_begins.
Qed.

Lemma rstrip_by_app (s suf : str) :
  forallb p suf = true -> rstrip_by p (s ++ suf) = rstrip_by p s.
Proof.
  intros H. unfold rstrip_by. rewrite rev_app_distr, lstrip_by_app; [reflexivity|].
  rewrite forallb_forall in H |- *. intros x Hx. apply H. now apply in_rev.
Qed.

Lemma rstrip_by_clean (s : str) :
  ends_with p s = false -> rstrip_by p s = s.
Proof.
  unfold ends_with, rstrip_by. intros H.
  rewrite lstrip_by_clean by exact H. apply rev_involutive.
Qed.

Lemma begins_with_app (s t : str) :
  s <> [] -> begins_with p (s ++ t) = begins_with p s.
Proof. destruct s; [congruence | reflexivity]. Qed.

Lemma ends_with_app (s t : str) :
  t <> [] -> ends_with p (s ++ t) = ends_with p t.
Proof.
  intros H. unfold ends_with. rewrite rev_app_distr. apply begins_with_app.
  intros E. apply H. apply (f_equal (@rev N)) in E.
  now rewrite rev_involutive in E.
Qed.

(** Stripping leaves a string that neither begins nor ends with a
    stripped character. *)
Lemma strip_by_edges (s : str) :
  begins_with p (strip_by p s) = false /\ ends_with p (strip_by p s) = false.
Proof.
  unfold strip_by. split; [|apply rstrip_by_ends].
  pose proof (lstrip_by_begins s) as B.
  destruct (rstrip_by_split (lstrip_by p s)) as (suf & H & _).
  destruct (rstrip_by p (lstrip_by p s)) as [|c r]; [reflexivity|].
  rewrite H in B. exact B.
Qed.

(** Stripping keeps a part of the string. *)
Lemma strip_by_split (s : str) :
  exists pre suf, s = pre ++ strip_by p s ++ suf /\
                  forallb p pre = true /\ forallb p suf = true.
Proof.
  unfold strip_by. destruct (lstrip_by_split s) as (pre & H & Hpre).
  destruct (rstrip_by_split (lstrip_by p s)) as (suf & H' & Hsuf).
  exists pre, suf. repeat split; try assumption.
  now rewrite <- H', <- H.
Qed.

(** Padding with stripped characters is undone. *)
Lemma strip_by_padded (pre s suf : str) :
  s <> [] -> begins_with p s = false -> ends_with p s = false ->
  forallb p pre = true -> forallb p suf = true ->
  strip_by p (pre ++ s ++ suf) = s.
Proof.
  intros Hs Hb He Hpre Hsuf. unfold strip_by.
  rewrite lstrip_by_app by exact Hpre.
  rewrite lstrip_by_clean by (now rewrite begins_with_app).
  rewrite rstrip_by_app by exact Hsuf. now apply rstrip_by_clean.
Qed.

End StripFacts.

Lemma split_once_spec (c : N) (s : str) :
  contains c s = true ->
  s = fst (split_once c s) ++ c :: snd (split_once c s) /\
  contains c (fst (split_once c s)) = false.
Proof.
  unfold contains. induction s as [|a rest IH]; cbn; [discriminate|].
  rewrite (N.eqb_sym c a). destruct (N.eqb a c) eqn:E; cbn.
  - intros _. apply N.eqb_eq in E. subst. split; reflexivity.
  - intros H. destruct (IH H) as (Hs & Hk).
    destruct (split_once c rest) as (k, v); cbn in *.
    rewrite (N.eqb_sym c a), E, Hk. split; [now rewrite <- Hs | reflexivity].
Qed.

Lemma split_once_app (c : N) (k v : str) :
  contains c k = false -> split_once c (k ++ c :: v) = (k, v).
Proof.
  unfold contains. induction k as [|a k IH]; cbn.
  - now rewrite N.eqb_refl.
  - rewrite (N.eqb_sym c a). destruct (N.eqb a c); cbn; [discriminate|].
    intros H. now rewrite (IH H).
Qed.

Lemma contains_cons_same (c : N) (s : str) : contains c (c :: s) = true.
Proof. unfold contains; cbn. now rewrite N.eqb_refl. Qed.

Lemma contains_app (c : N) (s t : str) :
  contains c (s ++ t) = contains c s || contains c t.
Proof. apply existsb_app. Qed.

Lemma nonempty_true (s : str) : nonempty s = true <-> s <> [].
Proof. destruct s; cbn; split; congruence. Qed.

Lemma forallb_begins (p : N -> bool) (pre s : str) :
  forallb p pre = true -> begins_with p (pre ++ s) = false -> pre = [].
Proof.
  destruct pre as [|c pre]; [reflexivity|]. cbn.
  intros H B. apply andb_true_iff in H as [H _]. congruence.
Qed.

(** Every assignment a line leads to is well formed. *)
Lemma parse_env_line_well_formed (line key value : str) :
  parse_env_line line = Some (key, value) ->
  well_formed_assignment key value.
Proof.
  unfold parse_env_line.
  pose proof (strip_by_edges is_space line) as [LB _]. fold (strip line) in LB.
  destruct (nonempty (strip line)) eqn:Hne; cbn [andb]; [|discriminate].
  destruct (startswith ch_hash (strip line)) eqn:Hh; cbn [negb andb]; [discriminate|].
  destruct (contains ch_equals (strip line)) eqn:Hc; [|discriminate].
  destruct (split_once_spec _ _ Hc) as (HL & Hk0).
  destruct (split_once ch_equals (strip line)) as (k0, v0). cbn [fst snd] in HL, Hk0.
  destruct (nonempty (strip k0)) eqn:Hk; cbn [andb]; [|discriminate].
  destruct (nonempty (strip_char ch_squote (strip_char ch_dquote (strip v0))))
    eqn:Hv; [|discriminate].
  intros H. injection H as <- <-. apply nonempty_true in Hk, Hv.
  destruct (strip_by_split is_space k0) as (pre & suf & Hsplit & Hpre & _).
  fold (strip k0) in Hsplit.
  destruct (strip_by_edges is_space k0) as [KB KE].
  destruct (strip_by_edges (N.eqb ch_squote)
              (strip_char ch_dquote (strip v0))) as [VB VE].
  unfold well_formed_assignment. repeat split; try assumption.
  - rewrite Hsplit, !contains_app in Hk0.
    apply orb_false_iff in Hk0 as [_ Hk0]. now apply orb_false_iff in Hk0 as [Hk0 _].
  - rewrite HL, Hsplit in LB, Hh.
    assert (pre = []) as ->.
    { apply (forallb_begins is_space pre
               ((strip k0 ++ suf) ++ ch_equals :: v0)); [exact Hpre|].
      now rewrite app_assoc. }
    cbn [app] in Hh. destruct (strip k0); [congruence|]. exact Hh.
Qed.

Lemma strip_by_clean (p : N -> bool) (s : str) :
  begins_with p s = false -> ends_with p s = false -> strip_by p s = s.
Proof.
  intros B E. unfold strip_by. rewrite lstrip_by_clean by exact B.
  now apply rstrip_by_clean.
Qed.

Lemma startswith_begins (c : N) (s : str) :
  startswith c s = begins_with (N.eqb c) s.
Proof. destruct s; cbn; [reflexivity | apply N.eqb_sym]. Qed.

Lemma space_no_equals (pad : str) :
  forallb is_space pad = true -> contains ch_equals pad = false.
Proof.
  unfold contains. induction pad as [|c pad IH]; cbn [forallb existsb];
    [reflexivity|].
  intros H. apply andb_true_iff in H as [Hc H]. rewrite (IH H), orb_false_r.
  destruct (N.eqb_spec ch_equals c) as [<-|]; [discriminate | reflexivity].
Qed.

(** A padded [key = raw] line: the key is read back, the raw value goes
    through the two quote strips. *)
Lemma parse_env_line_padded (key raw pad1 pad2 pad3 pad4 : str) :
  key <> [] -> contains ch_equals key = false ->
  begins_with is_space key = false -> ends_with is_space key = false ->
  startswith ch_hash key = false ->
  raw <> [] -> begins_with is_space raw = false -> ends_with is_space raw = false ->
  forallb is_space pad1 = true -> forallb is_space pad2 = true ->
  forallb is_space pad3 = true -> forallb is_space pad4 = true ->
  parse_env_line (pad1 ++ (key ++ pad2 ++ ch_equals :: pad3 ++ raw) ++ pad4) =
  if nonempty (strip_char ch_squote (strip_char ch_dquote raw))
  then Some (key, strip_char ch_squote (strip_char ch_dquote raw))
  else None.
Proof.
  intros Hk Hke Hkb Hkend Hkh Hr Hrb Hre H1 H2 H3 H4.
  unfold parse_env_line, strip.
  set (body := key ++ pad2 ++ ch_equals :: pad3 ++ raw).
  assert (Hbody : body <> []) by (unfold body; destruct key; [congruence | discriminate]).
  rewrite (strip_by_padded is_space pad1 body pad4); try assumption.
  2:{ unfold body. now rewrite begins_with_app. }
  2:{ unfold body.
      replace (key ++ pad2 ++ ch_equals :: pad3 ++ raw)
        with ((key ++ pad2 ++ ch_equals :: pad3) ++ raw)
        by (now rewrite <- !app_assoc).
      now rewrite ends_with_app. }
  assert (Hne : nonempty body = true) by now apply nonempty_true.
  assert (Hh : startswith ch_hash body = false).
  { unfold body. rewrite startswith_begins, begins_with_app by assumption.
    now rewrite <- startswith_begins. }
  assert (Hc : contains ch_equals body = true).
  { unfold body. rewrite !contains_app, contains_cons_same.
    now rewrite !orb_true_r. }
  rewrite Hne, Hh, Hc. cbn [negb andb].
  replace body with ((key ++ pad2) ++ ch_equals :: pad3 ++ raw)
    by (unfold body; now rewrite <- app_assoc).
  rewrite split_once_app
    by (rewrite contains_app, Hke, (space_no_equals pad2 H2); reflexivity).
  replace (key ++ pad2) with ([] ++ key ++ pad2) by reflexivity.
  rewrite (strip_by_padded is_space [] key pad2) by (assumption || reflexivity).
  replace (pad3 ++ raw) with (pad3 ++ raw ++ []) by (now rewrite app_nil_r).
  rewrite (strip_by_padded is_space pad3 raw []) by (assumption || reflexivity).
  replace (nonempty key) with true by (symmetry; now apply nonempty_true).
  reflexivity.
Qed.

(** X14. A well-formed assignment survives being written to the file
    and read back: the line [key=value], with any whitespace around the
    key, the [=] and the value, and with the value bare, between double
    quotes or between single quotes, is read as that very key and value.
    The value may itself contain [=]. *)
Theorem parse_env_line_round_trip (key value pad1 pad2 pad3 pad4 : str) :
  well_formed_assignment key value -> bare_value value ->
  forallb is_space pad1 = true -> forallb is_space pad2 = true ->
  forallb is_space pad3 = true -> forallb is_space pad4 = true ->
  parse_env_line (pad1 ++ (key ++ pad2 ++ ch_equals :: pad3 ++ value) ++ pad4)
    = Some (key, value) /\
  parse_env_line (pad1 ++ (key ++ pad2 ++ ch_equals :: pad3 ++
                           (ch_dquote :: value ++ [ch_dquote])) ++ pad4)
    = Some (key, value) /\
  parse_env_line (pad1 ++ (key ++ pad2 ++ ch_equals :: pad3 ++
                           (ch_squote :: value ++ [ch_squote])) ++ pad4)
    = Some (key, value).
Proof.
  intros (Hk & Hv & Hke & Hkb & Hkend & Hkh & Hsb & Hse) (Hvb & Hve & Hdb & Hde)
         H1 H2 H3 H4.
  assert (Hnv : nonempty value = true) by now apply nonempty_true.
  assert (Hends : forall c, is_space c = false ->
            ends_with is_space (c :: value ++ [c]) = false).
  { intros c Hc. change (c :: value ++ [c]) with ((c :: value) ++ [c]).
    rewrite ends_with_app by discriminate. exact Hc. }
  repeat split.
  - rewrite parse_env_line_padded by assumption.
    unfold strip_char. rewrite (strip_by_clean (N.eqb ch_dquote)) by assumption.
    rewrite (strip_by_clean (N.eqb ch_squote)) by assumption.
    now rewrite Hnv.
  - rewrite parse_env_line_padded;
      try assumption; try discriminate; try reflexivity;
      [|now apply Hends].
    unfold strip_char.
    change (ch_dquote :: value ++ [ch_dquote])
      with ([ch_dquote] ++ value ++ [ch_dquote]).
    rewrite (strip_by_padded (N.eqb ch_dquote)) by (assumption || reflexivity).
    rewrite (strip_by_clean (N.eqb ch_squote)) by assumption.
    now rewrite Hnv.
  - rewrite parse_env_line_padded;
      try assumption; try discriminate; try reflexivity;
      [|now apply Hends].
    unfold strip_char.
    rewrite (strip_by_clean (N.eqb ch_dquote)).
    + change (ch_squote :: value ++ [ch_squote])
        with ([ch_squote] ++ value ++ [ch_squote]).
      rewrite (strip_by_padded (N.eqb ch_squote)) by (assumption || reflexivity).
      now rewrite Hnv.
    + reflexivity.
    + change (ch_squote :: value ++ [ch_squote])
        with ((ch_squote :: value) ++ [ch_squote]).
      rewrite ends_with_app by discriminate. reflexivity.
Qed.

(** *** Lines the loop passes over *)

Lemma parse_env_line_skipped (line : str) :
  skipped_line line -> parse_env_line line = None.
Proof.
  intros [(pad & rest & -> & Hpad) | Hc]; unfold parse_env_line.
  - assert (Hs : startswith ch_hash (strip (pad ++ ch_hash :: rest)) = true).
    { unfold strip, strip_by. rewrite lstrip_by_app by exact Hpad.
      rewrite lstrip_by_clean by reflexivity.
      destruct (rstrip_by_split is_space (ch_hash :: rest)) as (suf & H & Hsuf).
      destruct (rstrip_by is_space (ch_hash :: rest)) as [|c r].
      - cbn in H. subst suf. discriminate.
      - injection H as <- _. reflexivity. }
    rewrite Hs. now rewrite andb_false_r.
  - assert (Hs : contains ch_equals (strip line) = false).
    { destruct (strip_by_split is_space line) as (pre & suf & H & _).
      fold (strip line) in H. rewrite H, !contains_app in Hc.
      apply orb_false_iff in Hc as [_ Hc]. now apply orb_false_iff in Hc as [Hc _]. }
    rewrite Hs. now rewrite andb_false_r.
Qed.

Lemma load_lines_app (ok : str -> str -> bool) (l1 l2 : list str) (e : bool) :
  load_lines ok (l1 ++ l2) e =
  let (made1, warned1) := load_lines ok l1 false in
  if warned1 then (made1, true)
  else let (made2, warned2) := load_lines ok l2 e in (made1 ++ made2, warned2).
Proof.
  induction l1 as [|line l1 IH]; cbn.
  - now destruct (load_lines ok l2 e).
  - destruct (parse_env_line line) as [[k v]|]; [|exact IH].
    destruct (ok k v); [|reflexivity].
    rewrite IH. destruct (load_lines ok l1 false) as (m1, w1).
    destruct w1; [reflexivity|].
    now destruct (load_lines ok l2 e).
Qed.

(** X15. Comment lines (a [#] after optional whitespace) and lines
    without [=], blank lines among them, change nothing: the file with such
    a line anywhere in it loads as the file without it. *)
Theorem load_env_file_skips (ok : str -> str -> bool) (l1 l2 : list str)
    (line : str) (e : bool) :
  skipped_line line ->
  load_env_file ok (Readable (l1 ++ line :: l2) e) =
  load_env_file ok (Readable (l1 ++ l2) e).
Proof.
  intros H. cbn [load_env_file]. rewrite !load_lines_app. cbn [load_lines].
  now rewrite (parse_env_line_skipped line H).
Qed.

Lemma load_lines_error (ok : str -> str -> bool) (l : list str) :
  load_lines ok l true = (fst (load_lines ok l false), true).
Proof.
  induction l as [|line l IH]; cbn; [reflexivity|].
  destruct (parse_env_line line) as [[k v]|]; [|exact IH].
  destruct (ok k v); [|reflexivity].
  rewrite IH. now destruct (load_lines ok l false).
Qed.

(** X16. When an assignment to the environment raises, the loading stops
    there with the warning: the assignments made before it stay, and the
    rest of the file, valid lines included, is not loaded. *)
Theorem load_env_file_stops (ok : str -> str -> bool) (l1 l2 : list str)
    (line key value : str) (e : bool) :
  parse_env_line line = Some (key, value) -> ok key value = false ->
  load_env_file ok (Readable (l1 ++ line :: l2) e) =
  load_env_file ok (Readable l1 true) /\
  snd (load_env_file ok (Readable (l1 ++ line :: l2) e)) = true.
Proof.
  intros Hp Hok. cbn [load_env_file].
  assert (H : load_lines ok (l1 ++ line :: l2) e = load_lines ok l1 true).
  { rewrite load_lines_app, load_lines_error. cbn [load_lines].
    rewrite Hp, Hok.
    destruct (load_lines ok l1 false) as (m1, w1). destruct w1; cbn;
      now rewrite ?app_nil_r. }
  split; [exact H|]. now rewrite H, load_lines_error.
Qed.

(** X13. Whatever the file holds, every assignment [load_env_file]
    makes went through, comes from a line of the file, and is well formed:
    a non-empty key, free of [=], of whitespace at its ends and of a
    leading [#], and a non-empty value that neither begins nor ends with a
    single quote.  A missing file leads to no assignment and no warning. *)
Theorem load_env_file_assignments (ok : str -> str -> bool) (f : env_file) :
  Forall (fun a => ok (fst a) (snd a) = true /\
                   well_formed_assignment (fst a) (snd a) /\
                   exists lines e line,
                     f = Readable lines e /\ In line lines /\
                     parse_env_line line = Some a)
         (fst (load_env_file ok f)) /\
  (f = Missing -> load_env_file ok f = ([], false)).
Proof.
  split; [|now intros ->].
  destruct f as [|lines e]; cbn [load_env_file]; [constructor|].
  assert (H : Forall (fun a => ok (fst a) (snd a) = true /\
                               well_formed_assignment (fst a) (snd a) /\
                               exists line, In line lines /\
                                            parse_env_line line = Some a)
                     (fst (load_lines ok lines e))).
  { induction lines as [|l lines IH]; cbn; [constructor|].
    destruct (parse_env_line l) as [[k v]|] eqn:Hp.
    - destruct (ok k v) eqn:Hok; [|constructor].
      destruct (load_lines ok lines e) as (made, w). cbn in IH |- *.
      constructor.
      + cbn. split; [exact Hok|]. split; [now apply (parse_env_line_well_formed l)|].
        exists l. cbn; auto.
      + eapply Forall_impl; [|exact IH].
        intros a (Ha & Hw & line & Hin & Hl).
        split; [exact Ha|]. split; [exact Hw|]. exists line. cbn; auto.
    - eapply Forall_impl; [|exact IH].
      intros a (Ha & Hw & line & Hin & Hl).
      split; [exact Ha|]. split; [exact Hw|]. exists line. cbn; auto. }
  eapply Forall_impl; [|exact H].
  intros a (Ha & Hw & line & Hin & Hl).
  split; [exact Ha|]. split; [exact Hw|]. exists lines, e, line. auto.
Qed.

(** * The further properties on examples *)

Lemma query_returns_all_witness :
  exists rs,
    value (query toy_encode insertion_argsort three_store "q" 3) = Returned rs /\
    Permutation rs (map (fun m => to_result m (similarity toy_encode m "q"))
                        (memories three_store)).
Proof.
  assert (Hk : (Z.of_nat (List.length (memories three_store)) <= 3)%Z)
    by discriminate.
  exact (query_returns_all toy_encode insertion_argsort
           [AddMemory "a" "xx" None; AddMemory "b" "xxxx" None;
            AddMemory "c" "xx" None; FlagMemory "b" (Some "outdated")]
           "q" 3 Hk).
Defined.

Lemma flagged_memory_still_returned_witness :
  (count_id "doc1" (memories doc1_store) <= 1)%nat /\
  exists rs,
    value (query toy_encode insertion_argsort doc1_store "office" 3)
      = Returned rs /\
    value (query toy_encode insertion_argsort
                 (self_after (flag_memory doc1_store "doc1" None)) "office" 3)
      = Returned (map (mark_result "doc1") rs).
Proof.
  assert (Hu : (count_id "doc1" (memories doc1_store) <= 1)%nat) by apply le_n.
  split; [exact Hu|].
  exact (flagged_memory_still_returned toy_encode insertion_argsort
           [AddMemory "doc1" "Office is in NYC" None] "doc1" None "office" 3 Hu).
Defined.

Lemma client_init_url_witness :
  fst (client_init (fun _ => None) (Some "k") (Some "http://h//"))
    = Constructed (mkClient "k" "http://h") /\
  forall t, "http://h" <> (t ++ "/")%string.
Proof.
  split; [reflexivity|].
  exact (proj2 (client_init_url (fun _ => None) (Some "k") (Some "http://h//")
                                (mkClient "k" "http://h") eq_refl)).
Defined.

Lemma parse_env_line_round_trip_witness :
  parse_env_line ([32] ++ ([65; 66] ++ [32] ++ ch_equals :: [32] ++
                           (ch_dquote :: [120; 61; 121] ++ [ch_dquote]))
                       ++ [10])%N
    = Some ([65; 66], [120; 61; 121])%N.
Proof.
  refine (proj1 (proj2 (parse_env_line_round_trip
                          [65; 66]%N [120; 61; 121]%N [32]%N [32]%N [32]%N [10]%N
                          _ _ eq_refl eq_refl eq_refl eq_refl))).
  - repeat split; try discriminate; reflexivity.
  - repeat split; reflexivity.
Defined.

Lemma load_env_file_skips_witness :
  skipped_line [32; 35; 65; 61; 49; 10]%N /\
  load_env_file (fun _ _ => true)
    (Readable ([[65; 61; 49; 10]] ++ [32; 35; 65; 61; 49; 10] :: [[66; 61; 50; 10]])%N
              false) =
  load_env_file (fun _ _ => true)
    (Readable ([[65; 61; 49; 10]] ++ [[66; 61; 50; 10]])%N false).
Proof.
  assert (H : skipped_line [32; 35; 65; 61; 49; 10]%N).
  { left. exists [32]%N, [65; 61; 49; 10]%N. split; reflexivity. }
  split; [exact H|]. apply load_env_file_skips. exact H.
Defined.

Lemma load_env_file_stops_witness :
  load_env_file (fun key _ => negb (contains 0 key))
    (Readable ([[65; 61; 49; 10]] ++ [66; 0; 61; 50; 10] :: [[67; 61; 51; 10]])%N
              false) =
  load_env_file (fun key _ => negb (contains 0 key))
    (Readable [[65; 61; 49; 10]]%N true).
Proof.
  exact (proj1 (load_env_file_stops (fun key _ => negb (contains 0 key))
                  [[65; 61; 49; 10]]%N [[67; 61; 51; 10]]%N
                  [66; 0; 61; 50; 10]%N [66; 0]%N [50]%N false
                  eq_refl eq_refl)).
Defined.
